(** * Visit counter service: sharded store, TTL cache and write batching

    A shallow embedding of the Python sources under [app/]:
    - [core/consistent_hash.py]  : the MD5 consistent-hash ring ([ConsistentHash]);
    - [core/redis_manager.py]    : routing of store operations to shards ([RedisManager]);
    - [services/cache_service.py]: the standalone TTL cache ([CacheService]);
    - [services/visit_counter.py]: the counter service with its inline cache and
                                   write buffer ([VisitCounterService]).

    Python dicts are stdpp [gmap]s, Python lists are Rocq lists, timestamps
    ([time.time()]) are rationals [Q], and every exception is an [Err] of the
    result type [res].  Whether a network round trip to a store node succeeds
    (connection or timeout errors) is an input of each store operation. *)

From Stdlib Require Import ZArith QArith Lia Lqa.
From stdpp Require Import base list gmap strings sorting pretty.

Open Scope Z_scope.

(* ------------------------------------------------------------------ *)
(** ** Results and errors *)

(** The exceptions the code can raise on the paths we model. *)
Inductive err :=
  | RingEmpty          (** [raise Exception("Hash ring is empty")] *)
  | ZeroDivision       (** [x % len(self.sorted_keys)] with an empty list *)
  | KeyErr             (** [self.hash_ring[k]] on a missing key *)
  | ValueErr           (** [self.sorted_keys.remove(h)] on a missing value *)
  | NoClient           (** [No Redis client available for node ...] *)
  | ConnFailed.        (** connection or timeout error of a store round trip *)

Inductive res (A : Type) :=
  | Ok (a : A)
  | Err (e : err).
Arguments Ok {A} a.
Arguments Err {A} e.

Definition res_bind {A B} (r : res A) (f : A -> res B) : res B :=
  match r with Ok a => f a | Err e => Err e end.


(* ------------------------------------------------------------------ *)
(** ** MD5, as used by [ConsistentHash._hash] *)

Module MD5.

Definition K : list Z :=
  [3614090360; 3905402710; 606105819; 3250441966; 4118548399; 1200080426;
   2821735955; 4249261313; 1770035416; 2336552879; 4294925233; 2304563134;
   1804603682; 4254626195; 2792965006; 1236535329; 4129170786; 3225465664;
   643717713; 3921069994; 3593408605; 38016083; 3634488961; 3889429448;
   568446438; 3275163606; 4107603335; 1163531501; 2850285829; 4243563512;
   1735328473; 2368359562; 4294588738; 2272392833; 1839030562; 4259657740;
   2763975236; 1272893353; 4139469664; 3200236656; 681279174; 3936430074;
   3572445317; 76029189; 3654602809; 3873151461; 530742520; 3299628645;
   4096336452; 1126891415; 2878612391; 4237533241; 1700485571; 2399980690;
   4293915773; 2240044497; 1873313359; 4264355552; 2734768916; 1309151649;
   4149444226; 3174756917; 718787259; 3951481745].

Definition SH : list Z :=
  [7;12;17;22; 7;12;17;22; 7;12;17;22; 7;12;17;22;
   5;9;14;20; 5;9;14;20; 5;9;14;20; 5;9;14;20;
   4;11;16;23; 4;11;16;23; 4;11;16;23; 4;11;16;23;
   6;10;15;21; 6;10;15;21; 6;10;15;21; 6;10;15;21].

Definition w32 (x : Z) : Z := x mod 2 ^ 32.
Definition lnot32 (x : Z) : Z := Z.lxor x (2 ^ 32 - 1).
Definition rotl (x : Z) (c : Z) : Z :=
  w32 (Z.lor (Z.shiftl x c) (Z.shiftr x (32 - c))).

(** Little-endian 32-bit word [j] of a 64-byte block. *)
Definition word (blk : list Z) (j : nat) : Z :=
  let b k := nth (4 * j + k)%nat blk 0 in
  b 0%nat + b 1%nat * 2 ^ 8 + b 2%nat * 2 ^ 16 + b 3%nat * 2 ^ 24.

Definition step (blk : list Z) (st : Z * Z * Z * Z) (i : nat) : Z * Z * Z * Z :=
  let '(a, b, c, d) := st in
  let '(f, g) :=
    if (i <? 16)%nat then (Z.lor (Z.land b c) (Z.land (lnot32 b) d), i)
    else if (i <? 32)%nat then (Z.lor (Z.land d b) (Z.land (lnot32 d) c), (5 * i + 1) mod 16)%nat
    else if (i <? 48)%nat then (Z.lxor b (Z.lxor c d), (3 * i + 5) mod 16)%nat
    else (Z.lxor c (Z.lor b (lnot32 d)), (7 * i) mod 16)%nat in
  let f' := w32 (f + a + nth i K 0 + word blk g) in
  (d, w32 (b + rotl f' (nth i SH 0)), b, c).

Definition block (st : Z * Z * Z * Z) (blk : list Z) : Z * Z * Z * Z :=
  let '(a, b, c, d) := st in
  let '(a', b', c', d') := fold_left (step blk) (seq 0 64) st in
  (w32 (a + a'), w32 (b + b'), w32 (c + c'), w32 (d + d')).

Fixpoint chunks (fuel : nat) (l : list Z) : list (list Z) :=
  match fuel with
  | O => []
  | Datatypes.S f => match l with [] => [] | _ => firstn 64 l :: chunks f (skipn 64 l) end
  end.

Definition le_bytes (n : nat) (x : Z) : list Z :=
  map (fun k => Z.land (Z.shiftr x (8 * Z.of_nat k)) 255) (seq 0 n).

Definition pad (m : list Z) : list Z :=
  let r := ((length m + 1) mod 64)%nat in
  let z := if (r <=? 56)%nat then (56 - r)%nat else (120 - r)%nat in
  m ++ [128] ++ repeat 0 z ++ le_bytes 8 (8 * Z.of_nat (length m)).

Definition digest (m : list Z) : list Z :=
  let p := pad m in
  let '(a, b, c, d) :=
    fold_left block (chunks (length p) p) (1732584193, 4023233417, 2562383102, 271733878) in
  le_bytes 4 a ++ le_bytes 4 b ++ le_bytes 4 c ++ le_bytes 4 d.

(** [int(hexdigest, 16)]: the digest bytes read as a big-endian number. *)
Definition to_int (ds : list Z) : Z := fold_left (fun acc x => acc * 256 + x) ds 0.

(** [key.encode('utf-8')]: a Rocq string is taken to be the UTF-8 byte
    sequence itself. *)
Definition bytes (s : string) : list Z :=
  map (fun a => Z.of_nat (Ascii.nat_of_ascii a)) (String.list_ascii_of_string s).

Definition md5_int (s : string) : Z := to_int (digest (bytes s)).

End MD5.

(* ------------------------------------------------------------------ *)
(** ** [ConsistentHash] (core/consistent_hash.py) *)

(** [bisect.bisect] (= [bisect_right]) with its default bounds [lo = 0],
    [hi = len(a)]:
<<
    while lo < hi:
        mid = (lo + hi) // 2
        if x < a[mid]: hi = mid
        else: lo = mid + 1
    return lo
>>
    The loop runs at most [hi - lo] times, which bounds the fuel. *)
Fixpoint bisect_go (fuel : nat) (a : list Z) (x : Z) (lo hi : nat) : nat :=
  match fuel with
  | O => lo
  | Datatypes.S f =>
      if (lo <? hi)%nat then
        let mid := ((lo + hi) / 2)%nat in
        if x <? nth mid a 0 then bisect_go f a x lo mid
        else bisect_go f a x (Datatypes.S mid) hi
      else lo
  end.

Definition bisect (a : list Z) (x : Z) : nat :=
  bisect_go (Datatypes.S (length a)) a x 0 (length a).

(** [list.remove(x)]: drop the first occurrence, [ValueError] if there is none. *)
Fixpoint list_remove (x : Z) (l : list Z) : option (list Z) :=
  match l with
  | [] => None
  | y :: l' => if decide (x = y) then Some l' else cons y <$> list_remove x l'
  end.

Record ring := mk_ring {
  virtual_nodes : nat;              (** [self.virtual_nodes] *)
  hash_ring : gmap Z string;        (** [self.hash_ring]: hash value -> node *)
  sorted_keys : list Z              (** [self.sorted_keys] *)
}.

(** [f"{node}:{i}"] *)
Definition vnode_key (node : string) (i : nat) : string :=
  String.append node (String.append ":" (pretty i)).

Section Ring.

(** [self._hash]; the program instance is [MD5.md5_int] (see [_hash] below). *)
Variable hash : string -> Z.

(** One iteration of the loop of [add_node]. *)
Definition add_vnode (node : string) (r : ring) (i : nat) : ring :=
  let h := hash (vnode_key node i) in
  mk_ring (virtual_nodes r) (<[h := node]> (hash_ring r)) (sorted_keys r ++ [h]).

(** [add_node]: the loop, then [self.sorted_keys.sort()]. *)
Definition add_node (r : ring) (node : string) : ring :=
  let r' := foldl (add_vnode node) r (seq 0 (virtual_nodes r)) in
  mk_ring (virtual_nodes r') (hash_ring r') (merge_sort Z.le (sorted_keys r')).

(** [ConsistentHash(nodes, virtual_nodes)] *)
Definition ConsistentHash (nodes : list string) (v : nat) : ring :=
  foldl add_node (mk_ring v ∅ []) nodes.

End Ring.

(** One iteration of the deletion loop of [remove_node]. *)
Definition remove_vnode (r : res ring) (h : Z) : res ring :=
  res_bind r (fun r =>
    match list_remove h (sorted_keys r) with
    | Some l => Ok (mk_ring (virtual_nodes r) (delete h (hash_ring r)) l)
    | None => Err ValueErr
    end).

(** [remove_node]: collect the hash values mapped to [node], then delete each
    from [hash_ring] and from [sorted_keys]. *)
Definition remove_node (r : ring) (node : string) : res ring :=
  let keys_to_remove :=
    fst <$> filter (fun kv => kv.2 = node) (map_to_list (hash_ring r)) in
  foldl remove_vnode (Ok r) keys_to_remove.

Section Lookup.
Variable hash : string -> Z.

(** [get_node] *)
Definition get_node (r : ring) (key : string) : res string :=
  if decide (hash_ring r = ∅) then Err RingEmpty else
  let h := hash key in
  let n := length (sorted_keys r) in
  if (n =? 0)%nat then Err ZeroDivision else
  let index := (bisect (sorted_keys r) h mod n)%nat in
  match sorted_keys r !! index with
  | None => Err KeyErr
  | Some k => match hash_ring r !! k with Some node => Ok node | None => Err KeyErr end
  end.

End Lookup.

(** The program's [_hash]: [int(hashlib.md5(key.encode('utf-8')).hexdigest(), 16)]. *)
Definition _hash : string -> Z := MD5.md5_int.

(* ------------------------------------------------------------------ *)
(** ** [RedisManager] (core/redis_manager.py) *)

(** [self.consistent_hash] and [self.redis_clients]; a client is modelled by
    the key/value contents of its node. *)
Record rman := mk_rman {
  consistent_hash : ring;
  redis_clients : gmap string (gmap string Z)
}.

(** Python's [<] on floats. *)
Definition qlt (x y : Q) : bool := negb (Qle_bool y x).

Section Store.
Variable hash : string -> Z.

(** [get_connection]: the node whose client serves [key]. *)
Definition get_connection (rm : rman) (key : string) : res string :=
  res_bind (get_node hash (consistent_hash rm) key) (fun node =>
    match redis_clients rm !! node with
    | Some _ => Ok node
    | None => Err NoClient
    end).

(** [increment]: [redis_client.incrby(key, amount)]; [ok] says whether the
    round trip succeeds. *)
Definition rm_increment (ok : bool) (rm : rman) (key : string) (amount : Z) : res (rman * Z) :=
  res_bind (get_connection rm key) (fun node =>
    if ok then
      let db := default ∅ (redis_clients rm !! node) in
      let v := default 0 (db !! key) + amount in
      Ok (mk_rman (consistent_hash rm) (<[node := <[key := v]> db]> (redis_clients rm)), v)
    else Err ConnFailed).

(** [get]: [int(value) if value is not None else 0]. *)
Definition rm_get (ok : bool) (rm : rman) (key : string) : res Z :=
  res_bind (get_connection rm key) (fun node =>
    if ok then Ok (default 0 (redis_clients rm !! node ≫= (fun db => db !! key)))
    else Err ConnFailed).

(** The value stored for [key] on the node the ring assigns it to (0 when absent). *)
Definition store_value (rm : rman) (key : string) : Z :=
  match get_node hash (consistent_hash rm) key with
  | Ok node => default 0 (redis_clients rm !! node ≫= (fun db => db !! key))
  | Err _ => 0
  end.

(* ------------------------------------------------------------------ *)
(** ** [VisitCounterService] (services/visit_counter.py) *)

Record svc := mk_svc {
  cache : gmap string (Z * Q);      (** page_id -> (count, expiration_timestamp) *)
  cache_ttl : Q;
  write_buffer : gmap string Z;     (** page_id -> pending_count *)
  last_flush_time : Q;
  flush_interval : Q;
  redis : rman                      (** the [redis_manager] singleton *)
}.

Definition set_cache (s : svc) (c : gmap string (Z * Q)) : svc :=
  mk_svc c (cache_ttl s) (write_buffer s) (last_flush_time s) (flush_interval s) (redis s).
Definition set_write_buffer (s : svc) (b : gmap string Z) : svc :=
  mk_svc (cache s) (cache_ttl s) b (last_flush_time s) (flush_interval s) (redis s).
Definition set_last_flush_time (s : svc) (t : Q) : svc :=
  mk_svc (cache s) (cache_ttl s) (write_buffer s) t (flush_interval s) (redis s).
Definition set_redis (s : svc) (rm : rman) : svc :=
  mk_svc (cache s) (cache_ttl s) (write_buffer s) (last_flush_time s) (flush_interval s) rm.

(** [f"visit_counter:{page_id}"] *)
Definition redis_key (page_id : string) : string := String.append "visit_counter" (String.append ":" page_id).

(** A store operation issued by the service: a call of [redis_manager.increment]. *)
Inductive store_op := OpIncr (key : string) (amount : Z).

(** One iteration of the loop of [flush_buffer]; [net k] says whether the
    round trip for store key [k] succeeds. *)
Definition flush_one (net : string -> bool) (acc : svc * list store_op) (kv : string * Z)
    : svc * list store_op :=
  let '(s, tr) := acc in
  let '(page_id, count) := kv in
  if 0 <? count then
    let rk := redis_key page_id in
    match rm_increment (net rk) (redis s) rk count with
    | Ok (rm', _) => (set_cache (set_redis s rm') (delete page_id (cache s)), tr ++ [OpIncr rk count])
    | Err _ =>
        (set_write_buffer s
           (<[page_id := default 0 (write_buffer s !! page_id) + count]> (write_buffer s)),
         tr ++ [OpIncr rk count])
    end
  else (s, tr).

(** [flush_buffer]; [tnow] is [time.time()] at the end of the flush.  Returns
    the new state and the store operations issued. *)
Definition flush_buffer (net : string -> bool) (tnow : Q) (s : svc) : svc * list store_op :=
  if decide (write_buffer s = ∅) then (s, []) else
  let buffer_copy := write_buffer s in
  let s1 := set_write_buffer s ∅ in
  let '(s2, tr) := foldl (flush_one net) (s1, []) (map_to_list buffer_copy) in
  (set_last_flush_time s2 tnow, tr).

(** [increment_visit] *)
Definition increment_visit (page_id : string) (s : svc) : svc :=
  set_cache
    (set_write_buffer s (<[page_id := default 0 (write_buffer s !! page_id) + 1]> (write_buffer s)))
    (delete page_id (cache s)).

Inductive source := InMemory | Redis.

(** The catch-up test of [get_visit_count]: [time_since_flush > self.flush_interval]. *)
Definition flush_due (current_time : Q) (s : svc) : bool :=
  qlt (flush_interval s) (current_time - last_flush_time s)%Q.

(** [get_visit_count] after the cache check: optional catch-up flush, store
    read, merge with the pending count, cache refill. *)
Definition read_through (netf : string -> bool) (getok : bool) (current_time tflush : Q)
    (page_id : string) (s : svc) : svc * res (Z * source) :=
  let s1 := if flush_due current_time s then fst (flush_buffer netf tflush s) else s in
  match rm_get getok (redis s1) (redis_key page_id) with
  | Err e => (s1, Err e)
  | Ok redis_count =>
      let pending_count := default 0 (write_buffer s1 !! page_id) in
      let total_count := redis_count + pending_count in
      (set_cache s1 (<[page_id := (total_count, (current_time + cache_ttl s1)%Q)]> (cache s1)),
       Ok (total_count, Redis))
  end.

(** [get_visit_count]; [netf] drives the catch-up flush, [getok] the store
    read, [tflush] is the clock at the end of the catch-up flush. *)
Definition get_visit_count (netf : string -> bool) (getok : bool) (current_time tflush : Q)
    (page_id : string) (s : svc) : svc * res (Z * source) :=
  match cache s !! page_id with
  | Some (count, expiration) =>
      if qlt current_time expiration then (s, Ok (count, InMemory))
      else read_through netf getok current_time tflush page_id (set_cache s (delete page_id (cache s)))
  | None => read_through netf getok current_time tflush page_id s
  end.

End Store.

(* ------------------------------------------------------------------ *)
(** ** [CacheService] (services/cache_service.py) *)

Record cache_service (A : Type) := mk_cs {
  cs_entries : gmap string (A * Q);  (** key -> (value, expiration_timestamp) *)
  ttl_seconds : Q
}.
Arguments mk_cs {A} _ _.
Arguments cs_entries {A} _.
Arguments ttl_seconds {A} _.

(** [set]; [now] is [time.time()]. *)
Definition cs_set {A} (now : Q) (key : string) (value : A) (c : cache_service A) : cache_service A :=
  mk_cs (<[key := (value, (now + ttl_seconds c)%Q)]> (cs_entries c)) (ttl_seconds c).

(** [get]: returns the new cache and [(value, hit_status)]. *)
Definition cs_get {A} (now : Q) (key : string) (c : cache_service A)
    : cache_service A * (option A * bool) :=
  match cs_entries c !! key with
  | None => (c, (None, false))
  | Some (value, expiration) =>
      if qlt expiration now then (mk_cs (delete key (cs_entries c)) (ttl_seconds c), (None, false))
      else (c, (Some value, true))
  end.

(* ------------------------------------------------------------------ *)
(** ** Ring successor rules, in the spec's words *)

(** The first entry of the sorted ring satisfying [P], wrapping to the
    first entry of the ring when there is none. *)
Definition ring_successor (P : Z -> bool) (sk : list Z) : option Z :=
  match find P sk with Some k => Some k | None => head sk end.

(** A lookup that takes the node of [ring_successor (P (hash key))]:
    [P = Z.leb] is "the first entry with hash >= the key's hash",
    [P = Z.ltb] is "the first entry with hash > the key's hash". *)
Definition locate_by (P : Z -> Z -> bool) (hash : string -> Z) (r : ring) (key : string)
    : res string :=
  if decide (hash_ring r = ∅) then Err RingEmpty else
  match ring_successor (P (hash key)) (sorted_keys r) with
  | None => Err ZeroDivision
  | Some k => match hash_ring r !! k with Some node => Ok node | None => Err KeyErr end
  end.

(** Rings the program can build: construction, then any [add_node] and any
    successful [remove_node]. *)
Inductive reachable (hash : string -> Z) (v : nat) : ring -> Prop :=
  | reach_init nodes : reachable hash v (ConsistentHash hash nodes v)
  | reach_add r node : reachable hash v r -> reachable hash v (add_node hash r node)
  | reach_remove r node r' :
      reachable hash v r -> remove_node r node = Ok r' -> reachable hash v r'.

(** The hash values of the virtual nodes of one node. *)
Definition node_hashes (hash : string -> Z) (v : nat) (node : string) : list Z :=
  map (fun i => hash (vnode_key node i)) (seq 0 v).

(** The hash values of the virtual nodes of [nodes], node by node. *)
Definition vnode_hashes (hash : string -> Z) (v : nat) (nodes : list string) : list Z :=
  concat (map (node_hashes hash v) nodes).

(** The ring entries (positions of [sorted_keys]) that resolve to [node]. *)
Definition entries_of (r : ring) (node : string) : nat :=
  length (filter (fun k => hash_ring r !! k = Some node) (sorted_keys r)).

(** Rings built from construction, additions of nodes and removals, tracked
    together with the list of nodes currently present, as long as no two
    virtual nodes of the present nodes hash to the same value. *)
Inductive tracked (hash : string -> Z) (v : nat) : list string -> ring -> Prop :=
  | tr_init nodes :
      NoDup (vnode_hashes hash v nodes) ->
      tracked hash v nodes (ConsistentHash hash nodes v)
  | tr_add ns r node :
      tracked hash v ns r -> NoDup (vnode_hashes hash v (ns ++ [node])) ->
      tracked hash v (ns ++ [node]) (add_node hash r node)
  | tr_remove ns r node r' :
      tracked hash v ns r -> remove_node r node = Ok r' ->
      tracked hash v (filter (fun m => m ≠ node) ns) r'.

(** Per-key observed count of the service: the stored value plus the
    pending buffered count. *)
Definition observed (hash : string -> Z) (s : svc) (page_id : string) : Z :=
  store_value hash (redis s) (redis_key page_id) + default 0 (write_buffer s !! page_id).

(** A store round trip for [key] can succeed: the ring resolves [key] to a
    node that has a client, and the network answers ([ok]). *)
Definition incr_ok (hash : string -> Z) (ok : bool) (rm : rman) (key : string) : bool :=
  match get_connection hash rm key with Ok _ => ok | Err _ => false end.

(** Representation invariant of a ring holding the virtual nodes of [ns]:
    its sorted keys are a sorted arrangement of their hash values, which are
    pairwise distinct, and [hash_ring] maps each of them to its node. *)
Definition ring_repr (hash : string -> Z) (v : nat) (ns : list string) (r : ring) : Prop :=
  virtual_nodes r = v /\
  sorted_keys r ≡ₚ vnode_hashes hash v ns /\
  StronglySorted Z.le (sorted_keys r) /\
  NoDup (vnode_hashes hash v ns) /\
  (forall k node, hash_ring r !! k = Some node <-> node ∈ ns /\ k ∈ node_hashes hash v node).

(** [increment_visit] over a sequence of pages. *)
Definition increments (ps : list string) (s : svc) : svc :=
  foldl (fun s q => increment_visit q s) s ps.

(** A single-node deployment (node "a", V = 100) with its client, and a
    service over it: cache TTL 5 s, flush interval 10 s, last flush at 0. *)
Definition example_rman : rman := mk_rman (ConsistentHash _hash ["a"] 100) {["a" := ∅]}.

Definition example_svc (wb : gmap string Z) : svc := mk_svc ∅ 5%Q wb 0%Q 10%Q example_rman.

(* ------------------------------------------------------------------ *)
(** ** Further code: [RedisManager.__init__], [CacheService.invalidate] and
    [clear], the [test_cache] endpoint *)

(** [RedisManager.__init__] given the parsed [redis_nodes] and
    [settings.VIRTUAL_NODES]: the ring over [redis_nodes], then, node by
    node, a connection pool from [redis.ConnectionPool.from_url(url=node)]
    and a client over it.  [from_url_ok node] is whether [from_url] accepts
    [node]: it raises [ValueError] for a URL whose scheme is not redis,
    rediss or unix (a bare host name such as "a" among them), and the
    exception aborts the constructor.  [dbs node] is the content of the
    server behind [node]; creating a client does not connect. *)
Definition RedisManager_init (hash : string -> Z) (from_url_ok : string -> bool)
    (redis_nodes : list string) (v : nat) (dbs : string -> gmap string Z) : res rman :=
  let ch := ConsistentHash hash redis_nodes v in
  res_bind
    (foldl (fun acc node => res_bind acc (fun clients =>
              if from_url_ok node then Ok (<[node := dbs node]> clients) else Err ValueErr))
       (Ok ∅) redis_nodes)
    (fun clients => Ok (mk_rman ch clients)).

(** [CacheService.invalidate] *)
Definition cs_invalidate {A} (key : string) (c : cache_service A) : cache_service A :=
  match cs_entries c !! key with
  | Some _ => mk_cs (delete key (cs_entries c)) (ttl_seconds c)
  | None => c
  end.

(** [CacheService.clear] *)
Definition cs_clear {A} (c : cache_service A) : cache_service A :=
  mk_cs ∅ (ttl_seconds c).

(** The [test_cache] endpoint: two reads of [page_id] in a row, at times
    [t1] and [t2], each with its own store oracles and flush clock; an error
    of either read is the endpoint's error. *)
Definition test_cache (hash : string -> Z) (netf1 : string -> bool) (getok1 : bool) (t1 tf1 : Q)
    (netf2 : string -> bool) (getok2 : bool) (t2 tf2 : Q) (page_id : string) (s : svc)
    : svc * res ((Z * source) * (Z * source)) :=
  let '(s1, first_result) := get_visit_count hash netf1 getok1 t1 tf1 page_id s in
  match first_result with
  | Err e => (s1, Err e)
  | Ok a =>
      let '(s2, second_result) := get_visit_count hash netf2 getok2 t2 tf2 page_id s1 in
      match second_result with
      | Err e => (s2, Err e)
      | Ok b => (s2, Ok (a, b))
      end
  end.

(** Every entry of [sorted_keys] is a key of [hash_ring] and conversely, the
    nodes of [hash_ring] are among the nodes added, and [hash_ring] is empty
    exactly when no node or no virtual node was added. *)
Definition built_inv (hash : string -> Z) (v : nat) (ns : list string) (r : ring) : Prop :=
  virtual_nodes r = v /\
  (forall k, k ∈ sorted_keys r <-> is_Some (hash_ring r !! k)) /\
  (forall k m, hash_ring r !! k = Some m -> m ∈ ns) /\
  (hash_ring r = ∅ <-> ns = [] \/ v = 0%nat).

(* ================================================================== *)
(** * Proofs *)

(** ** Binary search and the successor rule *)

Lemma sorted_nth (a : list Z) :
  StronglySorted Z.le a ->
  forall i j, (i <= j)%nat -> (j < length a)%nat -> nth i a 0 <= nth j a 0.
Proof.
  induction a as [|x a IH]; intros Hs i j Hij Hj; simpl in *; [lia|].
  inversion Hs as [|? ? Hs' Hf]; subst.
  destruct i as [|i], j as [|j]; try lia.
  - rewrite Forall_forall in Hf. apply Hf, list_elem_of_In, nth_In. lia.
  - apply IH; auto; lia.
Qed.

Lemma bisect_go_spec (a : list Z) (x : Z) :
  StronglySorted Z.le a ->
  forall fuel lo hi,
  (lo <= hi)%nat -> (hi <= length a)%nat -> (hi - lo <= fuel)%nat ->
  (forall j, (j < lo)%nat -> nth j a 0 <= x) ->
  (forall j, (hi <= j)%nat -> (j < length a)%nat -> x < nth j a 0) ->
  let p := bisect_go fuel a x lo hi in
  (p <= length a)%nat /\
  (forall j, (j < p)%nat -> nth j a 0 <= x) /\
  (forall j, (p <= j)%nat -> (j < length a)%nat -> x < nth j a 0).
Proof.
  intros Hs fuel. induction fuel as [|f IH]; intros lo hi Hlh Hh Hf Hlo Hhi; cbn [bisect_go].
  - assert (lo = hi) by lia. subst. split; [lia|]. auto.
  - destruct (Nat.ltb_spec lo hi) as [Hlt|Hge].
    + set (mid := ((lo + hi) / 2)%nat).
      assert (Hm1 : (lo <= mid)%nat) by (subst mid; apply Nat.div_le_lower_bound; lia).
      assert (Hm2 : (mid < hi)%nat) by (subst mid; apply Nat.Div0.div_lt_upper_bound; lia).
      destruct (Z.ltb_spec x (nth mid a 0)) as [Hx|Hx].
      * apply IH; try lia; auto.
        intros j Hj1 Hj2. pose proof (sorted_nth a Hs mid j Hj1 Hj2). lia.
      * apply IH; try lia; auto.
        intros j Hj. pose proof (sorted_nth a Hs j mid ltac:(lia) ltac:(lia)). lia.
    + assert (lo = hi) by lia. subst. split; [lia|]. auto.
Qed.

Lemma bisect_spec (a : list Z) (x : Z) :
  StronglySorted Z.le a ->
  let p := bisect a x in
  (p <= length a)%nat /\
  (forall j, (j < p)%nat -> nth j a 0 <= x) /\
  (forall j, (p <= j)%nat -> (j < length a)%nat -> x < nth j a 0).
Proof.
  intros Hs. unfold bisect. apply bisect_go_spec; auto; lia.
Qed.

Lemma find_first (P : Z -> bool) (a : list Z) (p : nat) :
  (p <= length a)%nat ->
  (forall j, (j < p)%nat -> P (nth j a 0) = false) ->
  ((p < length a)%nat -> P (nth p a 0) = true) ->
  find P a = a !! p.
Proof.
  revert p. induction a as [|x a IH]; intros p Hp Hbefore Hat; simpl in *.
  - destruct p; [done | lia].
  - destruct p as [|p].
    + rewrite (Hat ltac:(lia)). done.
    + rewrite (Hbefore 0%nat ltac:(lia)). apply IH; [lia| |].
      * intros j Hj. apply (Hbefore (Datatypes.S j)). lia.
      * intros Hj. apply Hat. lia.
Qed.

Lemma lookup_nth_Some (a : list Z) (i : nat) :
  (i < length a)%nat -> a !! i = Some (nth i a 0).
Proof.
  revert i. induction a as [|x a IH]; intros [|i] Hi; simpl in *; try lia; auto.
  apply IH. lia.
Qed.

(** [get_node] implements [locate_by Z.ltb] on every sorted ring. *)
Lemma get_node_locate_gt (hash : string -> Z) (r : ring) (key : string) :
  StronglySorted Z.le (sorted_keys r) ->
  get_node hash r key = locate_by Z.ltb hash r key.
Proof.
  intros Hs. unfold get_node, locate_by, ring_successor.
  case_decide; [done|].
  set (sk := sorted_keys r). set (h := hash key). fold sk in Hs.
  destruct (Nat.eqb_spec (length sk) 0) as [H0|H0].
  - destruct sk; [done | simpl in H0; lia].
  - destruct (bisect_spec sk h Hs) as (Hp & Hbef & Haft).
    set (p := bisect sk h) in *.
    assert (Hfind : find (Z.ltb h) sk = sk !! p).
    { apply find_first; auto.
      - intros j Hj. apply Z.ltb_ge. auto.
      - intros Hj. apply Z.ltb_lt. auto. }
    rewrite Hfind.
    destruct (Nat.eq_dec p (length sk)) as [Heq|Hne].
    + rewrite Heq, Nat.Div0.mod_same.
      rewrite (lookup_ge_None_2 sk (length sk)) by lia.
      destruct sk; [simpl in H0; lia | done].
    + rewrite Nat.mod_small by lia.
      rewrite (lookup_nth_Some sk p) by lia. done.
Qed.

(** ** Ring operations: structural lemmas *)

Lemma foldl_remove_vnode_err (ks : list Z) (e : err) :
  foldl remove_vnode (Err e) ks = Err e.
Proof. induction ks; simpl; auto. Qed.

Lemma list_remove_Some (h : Z) (l l' : list Z) :
  list_remove h l = Some l' -> exists l1 l2, l = l1 ++ h :: l2 /\ l' = l1 ++ l2.
Proof.
  revert l'. induction l as [|y l IH]; intros l' H; simpl in H; [done|].
  case_decide; subst.
  - inversion H; subst. exists [], l'. done.
  - destruct (list_remove h l) as [l''|] eqn:E; simpl in H; [|done].
    inversion H; subst. destruct (IH l'' eq_refl) as (l1 & l2 & -> & ->).
    exists (y :: l1), l2. done.
Qed.

Lemma list_remove_elem (h : Z) (l : list Z) :
  h ∈ l -> exists l', list_remove h l = Some l'.
Proof.
  induction l as [|y l IH]; intros Hin; simpl.
  - apply not_elem_of_nil in Hin. done.
  - case_decide; [eauto|].
    apply elem_of_cons in Hin as [-> | Hin]; [done|].
    destruct (IH Hin) as [l' ->]. eauto.
Qed.

Lemma list_remove_perm (h : Z) (l l' : list Z) :
  list_remove h l = Some l' -> l ≡ₚ h :: l'.
Proof.
  intros H. destruct (list_remove_Some h l l' H) as (l1 & l2 & -> & ->).
  by rewrite Permutation_middle.
Qed.

Lemma StronglySorted_drop_mid (l1 l2 : list Z) (x : Z) :
  StronglySorted Z.le (l1 ++ x :: l2) -> StronglySorted Z.le (l1 ++ l2).
Proof.
  induction l1 as [|y l1 IH]; simpl; intros Hs.
  - by inversion Hs.
  - inversion Hs as [|? ? Hs' Hf]; subst. constructor; [auto|].
    rewrite Forall_app in Hf |- *. destruct Hf as [Hf1 Hf2].
    inversion Hf2; subst. auto.
Qed.

Lemma remove_vnode_sorted (r r' : ring) (h : Z) :
  StronglySorted Z.le (sorted_keys r) -> remove_vnode (Ok r) h = Ok r' ->
  StronglySorted Z.le (sorted_keys r').
Proof.
  unfold remove_vnode; simpl. intros Hs H.
  destruct (list_remove h (sorted_keys r)) as [l|] eqn:E; [|done].
  inversion H; subst; simpl.
  destruct (list_remove_Some _ _ _ E) as (l1 & l2 & Hl & ->).
  rewrite Hl in Hs. by eapply StronglySorted_drop_mid.
Qed.

Lemma foldl_remove_vnode_ind (P : ring -> Prop) (ks : list Z) (r r' : ring) :
  (forall r1 h r2, P r1 -> remove_vnode (Ok r1) h = Ok r2 -> P r2) ->
  P r -> foldl remove_vnode (Ok r) ks = Ok r' -> P r'.
Proof.
  intros Hstep. revert r. induction ks as [|h ks IH]; intros r Hr H; cbn [foldl] in H.
  - by inversion H; subst.
  - destruct (remove_vnode (Ok r) h) as [r1|e] eqn:E.
    + eapply IH; [|exact H]. eauto.
    + rewrite foldl_remove_vnode_err in H. done.
Qed.

Lemma remove_node_sorted (r r' : ring) (node : string) :
  StronglySorted Z.le (sorted_keys r) -> remove_node r node = Ok r' ->
  StronglySorted Z.le (sorted_keys r').
Proof.
  unfold remove_node. intros Hs H.
  eapply (foldl_remove_vnode_ind (fun r => StronglySorted Z.le (sorted_keys r))); [|exact Hs|exact H].
  intros. eapply remove_vnode_sorted; eauto.
Qed.


Lemma add_vnodes_keys (hash : string -> Z) (node : string) (is : list nat) (r : ring) :
  virtual_nodes (foldl (add_vnode hash node) r is) = virtual_nodes r /\
  sorted_keys (foldl (add_vnode hash node) r is) =
    sorted_keys r ++ map (fun i => hash (vnode_key node i)) is.
Proof.
  revert r. induction is as [|i is IH]; intros r; simpl.
  - by rewrite app_nil_r.
  - destruct (IH (add_vnode hash node r i)) as [-> ->]. simpl.
    by rewrite <- app_assoc.
Qed.

Lemma add_vnodes_lookup (hash : string -> Z) (node : string) (is : list nat) (r : ring) (k : Z) :
  hash_ring (foldl (add_vnode hash node) r is) !! k =
    if decide (k ∈ map (fun i => hash (vnode_key node i)) is) then Some node
    else hash_ring r !! k.
Proof.
  revert r. induction is as [|i is IH]; intros r; cbn [foldl map].
  - case_decide as Hin; [by apply not_elem_of_nil in Hin | done].
  - rewrite IH. unfold add_vnode. cbn [hash_ring].
    destruct (decide (k ∈ map (fun i => hash (vnode_key node i)) is)) as [H1|H1];
    destruct (decide (k ∈ hash (vnode_key node i) :: map (fun i => hash (vnode_key node i)) is))
      as [H2|H2]; rewrite ?elem_of_cons in H2; try done.
    + exfalso. auto.
    + destruct H2 as [H2|H2]; [|done]. rewrite H2. apply lookup_insert_eq.
    + rewrite lookup_insert_ne; [done|]. intros Heq. apply H2. by left.
Qed.

Lemma add_node_sorted (hash : string -> Z) (r : ring) (node : string) :
  StronglySorted Z.le (sorted_keys (add_node hash r node)).
Proof. unfold add_node. simpl. apply StronglySorted_merge_sort; [apply _ | intros x y; lia]. Qed.

Lemma ConsistentHash_sorted (hash : string -> Z) (nodes : list string) (v : nat) :
  StronglySorted Z.le (sorted_keys (ConsistentHash hash nodes v)).
Proof.
  unfold ConsistentHash. cut (forall r, StronglySorted Z.le (sorted_keys r) ->
    StronglySorted Z.le (sorted_keys (foldl (add_node hash) r nodes))).
  { intros H. apply H. constructor. }
  induction nodes as [|n ns IH]; intros r Hr; simpl; auto.
  apply IH, add_node_sorted.
Qed.

Lemma reachable_sorted (hash : string -> Z) (v : nat) (r : ring) :
  reachable hash v r -> StronglySorted Z.le (sorted_keys r).
Proof.
  induction 1.
  - apply ConsistentHash_sorted.
  - apply add_node_sorted.
  - eapply remove_node_sorted; eauto.
Qed.

(** ** C3: the lookup rule of [get_node] *)

(** C3 (amended).  On every ring the program can build (construction, then
    any [add_node] / successful [remove_node]), [get_node] returns the node
    mapped to the first sorted entry whose hash is strictly greater than the
    key's hash ([bisect] is [bisect_right]), wrapping to the first entry when
    there is none; it fails with [RingEmpty] exactly when [hash_ring] is empty. *)
Theorem get_node_first_greater (hash : string -> Z) (v : nat) (r : ring) (key : string) :
  reachable hash v r ->
  get_node hash r key = locate_by Z.ltb hash r key /\
  (get_node hash r key = Err RingEmpty <-> hash_ring r = ∅).
Proof.
  intros Hr. pose proof (get_node_locate_gt hash r key (reachable_sorted hash v r Hr)) as E.
  split; [exact E|]. rewrite E. unfold locate_by.
  case_decide; split; intros H'; try done.
  destruct (ring_successor _ _) as [k|]; [|done].
  destruct (hash_ring r !! k); done.
Qed.

Lemma get_node_first_greater_witness :
  reachable _hash 100 (ConsistentHash _hash ["a"; "b"] 100) /\
  get_node _hash (ConsistentHash _hash ["a"; "b"] 100) "a:1" =
    locate_by Z.ltb _hash (ConsistentHash _hash ["a"; "b"] 100) "a:1".
Proof.
  split; [constructor|].
  exact (proj1 (get_node_first_greater _hash 100 (ConsistentHash _hash ["a"; "b"] 100) "a:1"
                  (reach_init _hash 100 ["a"; "b"]))).
Defined.

(** C3 counterexample.  Ring ["a"; "b"] with the default 100 virtual nodes
    and MD5: the key "a:1" hashes exactly to the virtual node "a:1" of "a".
    The "first entry with hash >= the key's hash" is that entry (node "a"),
    but [get_node] skips it and returns "b". *)
Lemma get_node_ge_counterexample :
  get_node _hash (ConsistentHash _hash ["a"; "b"] 100) "a:1" = Ok "b" /\
  locate_by Z.leb _hash (ConsistentHash _hash ["a"; "b"] 100) "a:1" = Ok "a".
Proof. split; vm_compute; reflexivity. Qed.

(** ** The representation invariant of tracked rings *)

Lemma elem_of_vnode_hashes (hash : string -> Z) (v : nat) (ns : list string) (k : Z) :
  k ∈ vnode_hashes hash v ns <-> exists m, m ∈ ns /\ k ∈ node_hashes hash v m.
Proof.
  unfold vnode_hashes. induction ns as [|n ns IH]; simpl.
  - split; [intros Hin; by apply not_elem_of_nil in Hin | intros (m & Hm & _); by apply not_elem_of_nil in Hm].
  - rewrite elem_of_app, IH. setoid_rewrite elem_of_cons. naive_solver.
Qed.

Lemma vnode_hashes_app (hash : string -> Z) (v : nat) (ns1 ns2 : list string) :
  vnode_hashes hash v (ns1 ++ ns2) = vnode_hashes hash v ns1 ++ vnode_hashes hash v ns2.
Proof. unfold vnode_hashes. by rewrite map_app, concat_app. Qed.

Lemma vnode_hashes_single (hash : string -> Z) (v : nat) (n : string) :
  vnode_hashes hash v [n] = node_hashes hash v n.
Proof. unfold vnode_hashes. simpl. by rewrite app_nil_r. Qed.

Lemma vnode_hashes_split (hash : string -> Z) (v : nat) (ns : list string) (n : string) :
  vnode_hashes hash v ns ≡ₚ
    vnode_hashes hash v (filter (fun m => m = n) ns) ++ vnode_hashes hash v (filter (fun m => m ≠ n) ns).
Proof.
  induction ns as [|a ns IH]; [done|].
  rewrite !filter_cons. change (vnode_hashes hash v (a :: ns)) with (node_hashes hash v a ++ vnode_hashes hash v ns).
  destruct (decide (a = n)) as [Ha|Ha]; destruct (decide (a ≠ n)) as [Hb|Hb]; try done.
  - change (vnode_hashes hash v (a :: filter (fun m => m = n) ns))
      with (node_hashes hash v a ++ vnode_hashes hash v (filter (fun m => m = n) ns)).
    rewrite <- app_assoc. by rewrite IH.
  - change (vnode_hashes hash v (a :: filter (fun m => m ≠ n) ns))
      with (node_hashes hash v a ++ vnode_hashes hash v (filter (fun m => m ≠ n) ns)).
    rewrite IH, !app_assoc. by rewrite (Permutation_app_comm (node_hashes hash v a)).
Qed.

(** Without hash collisions, a virtual-node hash identifies its node. *)
Lemma node_hashes_unique (hash : string -> Z) (v : nat) (ns : list string) (m1 m2 : string) (k : Z) :
  NoDup (vnode_hashes hash v ns) -> m1 ∈ ns -> m2 ∈ ns ->
  k ∈ node_hashes hash v m1 -> k ∈ node_hashes hash v m2 -> m1 = m2.
Proof.
  induction ns as [|a ns IH]; intros Hnd H1 H2 Hk1 Hk2.
  - by apply not_elem_of_nil in H1.
  - change (vnode_hashes hash v (a :: ns)) with (node_hashes hash v a ++ vnode_hashes hash v ns) in Hnd.
    apply NoDup_app in Hnd as (_ & Hdisj & Hnd).
    apply elem_of_cons in H1 as [-> | H1]; apply elem_of_cons in H2 as [-> | H2]; auto.
    + exfalso. apply (Hdisj k Hk1). apply elem_of_vnode_hashes. eauto.
    + exfalso. apply (Hdisj k Hk2). apply elem_of_vnode_hashes. eauto.
Qed.

Lemma ring_repr_empty (hash : string -> Z) (v : nat) :
  ring_repr hash v [] (mk_ring v ∅ []).
Proof.
  unfold ring_repr. cbn [virtual_nodes sorted_keys hash_ring].
  split; [done|]. split; [done|]. split; [constructor|]. split; [constructor|].
  intros k node. rewrite lookup_empty. split; [done|].
  intros [Hn _]. by apply not_elem_of_nil in Hn.
Qed.

Lemma ring_repr_add (hash : string -> Z) (v : nat) (ns : list string) (r : ring) (n : string) :
  ring_repr hash v ns r -> NoDup (vnode_hashes hash v (ns ++ [n])) ->
  ring_repr hash v (ns ++ [n]) (add_node hash r n).
Proof.
  intros (Hv & Hperm & _ & _ & Hlook) Hnd.
  destruct (add_vnodes_keys hash n (seq 0 (virtual_nodes r)) r) as [Hv' Hsk'].
  unfold ring_repr, add_node. cbv zeta. cbn [virtual_nodes hash_ring sorted_keys].
  rewrite Hv', Hsk'. cbn [virtual_nodes hash_ring sorted_keys]. split; [done|]. split; [|split; [|split; [done|]]].
  - rewrite merge_sort_Permutation, Hperm, vnode_hashes_app, vnode_hashes_single, Hv. done.
  - apply StronglySorted_merge_sort; [apply _ | intros x y; lia].
  - intros k m. rewrite add_vnodes_lookup, Hv. fold (node_hashes hash v n).
    rewrite elem_of_app, list_elem_of_singleton.
    case_decide as Hk.
    + split.
      * intros [= <-]. auto.
      * intros [[Hm | ->] Hkm]; [|done].
        f_equal. symmetry. apply (node_hashes_unique hash v (ns ++ [n]) m n k); auto;
          apply elem_of_app; [by left | right; by apply list_elem_of_singleton].
    + rewrite Hlook. split; [naive_solver|].
      intros [[Hm | ->] Hkm]; [auto | done].
Qed.

Lemma ring_repr_ConsistentHash (hash : string -> Z) (v : nat) (nodes : list string) :
  NoDup (vnode_hashes hash v nodes) -> ring_repr hash v nodes (ConsistentHash hash nodes v).
Proof.
  intros Hnd. unfold ConsistentHash.
  cut (forall ns0 r, ring_repr hash v ns0 r -> NoDup (vnode_hashes hash v (ns0 ++ nodes)) ->
         ring_repr hash v (ns0 ++ nodes) (foldl (add_node hash) r nodes)).
  { intros H. apply (H []); [apply ring_repr_empty | done]. }
  clear Hnd. induction nodes as [|n ns IH]; intros ns0 r Hr Hnd; simpl.
  - by rewrite app_nil_r.
  - replace (ns0 ++ n :: ns) with ((ns0 ++ [n]) ++ ns) in * by by rewrite <- app_assoc.
    apply IH; [|done]. apply ring_repr_add; [done|].
    rewrite vnode_hashes_app in Hnd. by apply NoDup_app in Hnd as [? _].
Qed.

Lemma remove_vnodes_spec (ks : list Z) (r : ring) :
  NoDup ks -> (forall k, k ∈ ks -> k ∈ sorted_keys r) ->
  exists r', foldl remove_vnode (Ok r) ks = Ok r' /\
    virtual_nodes r' = virtual_nodes r /\
    sorted_keys r ≡ₚ ks ++ sorted_keys r' /\
    (forall k, hash_ring r' !! k = if decide (k ∈ ks) then None else hash_ring r !! k).
Proof.
  revert r. induction ks as [|h ks IH]; intros r Hnd Hin.
  - exists r. split; [done|]. split; [done|]. split; [done|].
    intros k. case_decide as Hk; [by apply not_elem_of_nil in Hk | done].
  - apply NoDup_cons in Hnd as [Hh Hnd].
    destruct (list_remove_elem h (sorted_keys r)) as [l Hl]; [apply Hin, elem_of_cons; auto|].
    pose proof (list_remove_perm _ _ _ Hl) as Hp.
    set (r1 := mk_ring (virtual_nodes r) (delete h (hash_ring r)) l).
    assert (Hr1 : remove_vnode (Ok r) h = Ok r1) by (unfold remove_vnode; simpl; by rewrite Hl).
    destruct (IH r1) as (r' & Hf & Hv & Hsk & Hlk); [done| |].
    { intros k Hk. assert (k ∈ h :: l) as Hk'.
      { rewrite <- Hp. apply Hin, elem_of_cons. auto. }
      apply elem_of_cons in Hk' as [-> | Hk']; [done | done]. }
    exists r'. cbn [foldl]. rewrite Hr1. split; [done|]. split; [done|]. split.
    + rewrite Hp. change (sorted_keys r1) with l in Hsk. by rewrite Hsk.
    + intros k. rewrite Hlk. change (hash_ring r1) with (delete h (hash_ring r)).
      destruct (decide (k ∈ ks)) as [Hk|Hk]; destruct (decide (k ∈ h :: ks)) as [Hk'|Hk'];
        rewrite ?elem_of_cons in Hk'; try done.
      * exfalso. auto.
      * destruct Hk' as [-> | Hk']; [|done]. by rewrite lookup_delete_eq.
      * rewrite lookup_delete_ne; [done|]. intros ->. auto.
Qed.

(** The hash values [remove_node] collects for [node]. *)
Lemma keys_to_remove_spec (r : ring) (node : string) :
  let ks := fst <$> filter (fun kv => kv.2 = node) (map_to_list (hash_ring r)) in
  NoDup ks /\ (forall k, k ∈ ks <-> hash_ring r !! k = Some node).
Proof.
  simpl. split.
  - apply NoDup_fmap_fst.
    + intros x y1 y2 H1 H2. apply list_elem_of_filter in H1 as [_ H1].
      apply list_elem_of_filter in H2 as [_ H2].
      apply elem_of_map_to_list in H1, H2. congruence.
    + apply NoDup_filter, NoDup_map_to_list.
  - intros k. rewrite list_elem_of_fmap. split.
    + intros ([k' m] & -> & Hkv). apply list_elem_of_filter in Hkv as [Hm Hkv].
      simpl in *. subst. by apply elem_of_map_to_list in Hkv.
    + intros Hk. exists (k, node). split; [done|].
      apply list_elem_of_filter. split; [done|]. by apply elem_of_map_to_list.
Qed.

Lemma ring_repr_remove (hash : string -> Z) (v : nat) (ns : list string) (r : ring) (n : string) :
  ring_repr hash v ns r ->
  exists r', remove_node r n = Ok r' /\ ring_repr hash v (filter (fun m => m ≠ n) ns) r'.
Proof.
  intros (Hv & Hperm & Hs & Hnd & Hlook).
  destruct (keys_to_remove_spec r n) as [Hksnd Hks].
  set (ks := fst <$> filter (fun kv => kv.2 = n) (map_to_list (hash_ring r))) in *.
  destruct (remove_vnodes_spec ks r Hksnd) as (r' & Hf & Hv' & Hsk & Hlk).
  { intros k Hk. rewrite Hperm. apply Hks, Hlook in Hk as [Hn Hk].
    apply elem_of_vnode_hashes. eauto. }
  assert (Hrm : remove_node r n = Ok r') by exact Hf.
  exists r'. split; [done|].
  pose proof (vnode_hashes_split hash v ns n) as Hsplit.
  assert (Hnd2 := Hnd). rewrite Hsplit in Hnd2. apply NoDup_app in Hnd2 as (Hnd_eq & _ & Hnd_ne).
  assert (Hkseq : ks ≡ₚ vnode_hashes hash v (filter (fun m => m = n) ns)).
  { apply NoDup_Permutation; [done|done|]. intros k.
    rewrite Hks, Hlook, elem_of_vnode_hashes. setoid_rewrite list_elem_of_filter.
    split; [intros [? ?]; eauto | intros (m & [-> ?] & ?); auto]. }
  split; [by rewrite Hv'|]. split; [|split; [|split; [done|]]].
  - apply (Permutation_app_inv_l ks). rewrite <- Hsk, Hperm, Hsplit, Hkseq. done.
  - eapply remove_node_sorted; eauto.
  - intros k m. rewrite Hlk, list_elem_of_filter. case_decide as Hk.
    + split; [done|]. intros [[Hmn Hm] Hkm].
      apply Hks in Hk. assert (hash_ring r !! k = Some m) as Hk' by (apply Hlook; auto).
      congruence.
    + rewrite Hlook. split; [|naive_solver].
      intros [Hm Hkm]. split; [|done]. split; [|done].
      intros ->. apply Hk, Hks, Hlook. auto.
Qed.

Lemma tracked_repr (hash : string -> Z) (v : nat) (ns : list string) (r : ring) :
  tracked hash v ns r -> ring_repr hash v ns r.
Proof.
  induction 1 as [nodes Hnd | ns r node Ht IH Hnd | ns r node r' Ht IH Hrm].
  - by apply ring_repr_ConsistentHash.
  - by apply ring_repr_add.
  - destruct (ring_repr_remove hash v ns r node IH) as (r'' & Hrm' & Hr'').
    rewrite Hrm in Hrm'. by inversion Hrm'; subst.
Qed.

Lemma entries_of_repr (hash : string -> Z) (v : nat) (ns : list string) (r : ring) (node : string) :
  ring_repr hash v ns r ->
  entries_of r node = if decide (node ∈ ns) then v else 0%nat.
Proof.
  intros (Hv & Hperm & _ & Hnd & Hlook). unfold entries_of.
  rewrite Hperm.
  assert (Hflt : filter (fun k => hash_ring r !! k = Some node) (vnode_hashes hash v ns) ≡ₚ
                 (if decide (node ∈ ns) then node_hashes hash v node else [])).
  { apply NoDup_Permutation.
    - by apply NoDup_filter.
    - case_decide as Hn; [|constructor].
      apply list_elem_of_split in Hn as (ns1 & ns2 & ->).
      rewrite vnode_hashes_app in Hnd. apply NoDup_app in Hnd as (_ & _ & Hnd).
      change (vnode_hashes hash v (node :: ns2)) with (node_hashes hash v node ++ vnode_hashes hash v ns2) in Hnd.
      by apply NoDup_app in Hnd as [? _].
    - intros k. rewrite list_elem_of_filter, Hlook, elem_of_vnode_hashes.
      case_decide as Hn.
      + split; [naive_solver|]. intros Hk. eauto.
      + split; [naive_solver|]. intros Hk. by apply not_elem_of_nil in Hk. }
  rewrite Hflt. case_decide; [|done]. unfold node_hashes. by rewrite length_map, length_seq.
Qed.

Lemma option_eq_Some {A} (o1 o2 : option A) :
  (forall x, o1 = Some x <-> o2 = Some x) -> o1 = o2.
Proof. intros H. destruct o1 as [x|], o2 as [y|]; naive_solver. Qed.

(** Two rings representing the same set of nodes are equal. *)
Lemma ring_repr_unique (hash : string -> Z) (v : nat) (ns1 ns2 : list string) (r1 r2 : ring) :
  ring_repr hash v ns1 r1 -> ring_repr hash v ns2 r2 ->
  (forall m, m ∈ ns1 <-> m ∈ ns2) -> r1 = r2.
Proof.
  intros (Hv1 & Hp1 & Hs1 & Hnd1 & Hl1) (Hv2 & Hp2 & Hs2 & Hnd2 & Hl2) Hns.
  assert (Hsk : sorted_keys r1 = sorted_keys r2).
  { apply (StronglySorted_unique Z.le); [done|done|].
    rewrite Hp1, Hp2. apply NoDup_Permutation; [done|done|].
    intros k. rewrite !elem_of_vnode_hashes. setoid_rewrite Hns. done. }
  assert (Hhr : hash_ring r1 = hash_ring r2).
  { apply map_eq. intros k. apply option_eq_Some. intros m. rewrite Hl1, Hl2, Hns. done. }
  destruct r1, r2; simpl in *. subst. done.
Qed.

Lemma filter_eq_single (l : list string) (a : string) :
  NoDup l -> a ∈ l -> filter (fun m => m = a) l = [a].
Proof.
  induction l as [|b l IH]; intros Hnd Ha; [by apply not_elem_of_nil in Ha|].
  apply NoDup_cons in Hnd as [Hb Hnd]. rewrite filter_cons.
  case_decide as Hba.
  - subst. f_equal. clear IH Hnd. induction l as [|c l IHl]; [done|].
    rewrite filter_cons. apply not_elem_of_cons in Hb as [Hc Hb].
    case_decide; [congruence|]. apply IHl; [done|]. apply elem_of_cons. by left.
  - apply elem_of_cons in Ha as [-> | Ha]; [done|]. auto.
Qed.

(** MD5 gives pairwise distinct hashes to the 200 virtual nodes of ["a"; "b"]. *)
Lemma md5_ab_no_collision : NoDup (vnode_hashes _hash 100 ["a"; "b"]).
Proof. apply (bool_decide_unpack _). vm_compute. exact I. Qed.

(** ** C7: removing and re-adding a node *)

(** C7.  For a fixed set of node names (no name twice, and no two of their
    virtual nodes hashing to the same value), removing a node of the ring
    succeeds, and adding it back gives every key the node it had before the
    removal. *)
Theorem remove_readd_same_assignment (hash : string -> Z) (v : nat) (nodes : list string) (a : string) :
  NoDup nodes -> NoDup (vnode_hashes hash v nodes) -> a ∈ nodes ->
  exists r', remove_node (ConsistentHash hash nodes v) a = Ok r' /\
    forall key, get_node hash (add_node hash r' a) key = get_node hash (ConsistentHash hash nodes v) key.
Proof.
  intros Hnodes Hnd Ha.
  pose proof (ring_repr_ConsistentHash hash v nodes Hnd) as Hr.
  destruct (ring_repr_remove hash v nodes _ a Hr) as (r' & Hrm & Hr').
  exists r'. split; [done|]. intros key. f_equal.
  assert (Hnd' : NoDup (vnode_hashes hash v (filter (fun m => m ≠ a) nodes ++ [a]))).
  { rewrite vnode_hashes_app, vnode_hashes_single.
    pose proof (vnode_hashes_split hash v nodes a) as Hs.
    rewrite (filter_eq_single nodes a Hnodes Ha), vnode_hashes_single in Hs.
    rewrite Permutation_app_comm, <- Hs. done. }
  apply (ring_repr_unique hash v _ _ _ _ (ring_repr_add hash v _ r' a Hr' Hnd') Hr).
  intros m. rewrite elem_of_app, list_elem_of_filter, list_elem_of_singleton.
  split; [intros [[_ Hm] | ->]; auto|].
  intros Hm. destruct (decide (m = a)); auto.
Qed.

Lemma remove_readd_same_assignment_witness :
  NoDup ["a"; "b"] /\ NoDup (vnode_hashes _hash 100 ["a"; "b"]) /\ "a" ∈ ["a"; "b"] /\
  exists r', remove_node (ConsistentHash _hash ["a"; "b"] 100) "a" = Ok r' /\
    forall key, get_node _hash (add_node _hash r' "a") key =
                get_node _hash (ConsistentHash _hash ["a"; "b"] 100) key.
Proof.
  assert (H1 : NoDup ["a"; "b"]) by (apply (bool_decide_unpack _); vm_compute; exact I).
  assert (H3 : "a" ∈ ["a"; "b"]) by (apply (bool_decide_unpack _); vm_compute; exact I).
  exact (conj H1 (conj md5_ab_no_collision (conj H3
    (remove_readd_same_assignment _hash 100 ["a"; "b"] "a" H1 md5_ab_no_collision H3)))).
Defined.

(** ** C8: the ring invariant *)

Lemma filter_all_in {A} (P : A -> Prop) `{forall x, Decision (P x)} (l : list A) :
  (forall x, x ∈ l -> P x) -> filter P l = l.
Proof.
  induction l as [|x l IH]; intros Hl; [done|].
  rewrite filter_cons_True by (apply Hl; by left). f_equal.
  apply IH. intros y Hy. apply Hl. by right.
Qed.

Lemma filter_none_in {A} (P : A -> Prop) `{forall x, Decision (P x)} (l : list A) :
  (forall x, x ∈ l -> ~ P x) -> filter P l = [].
Proof.
  induction l as [|x l IH]; intros Hl; [done|].
  rewrite filter_cons_False by (apply Hl; by left).
  apply IH. intros y Hy. apply Hl. by right.
Qed.

(** Adding a node that is already present maps its virtual nodes to it once
    more and appends their hash values to [sorted_keys] a second time. *)
Lemma entries_of_readd (hash : string -> Z) (v : nat) (ns : list string) (r : ring) (n m : string) :
  ring_repr hash v ns r -> n ∈ ns ->
  entries_of (add_node hash r n) m = (entries_of r m + if decide (m = n) then v else 0)%nat.
Proof.
  intros Hr Hn. pose proof Hr as (Hv & _ & _ & _ & Hlook).
  destruct (add_vnodes_keys hash n (seq 0 (virtual_nodes r)) r) as [_ Hsk].
  assert (Hhr : hash_ring (add_node hash r n) = hash_ring r).
  { apply map_eq. intros k. unfold add_node. cbn [hash_ring].
    rewrite add_vnodes_lookup, Hv. fold (node_hashes hash v n).
    case_decide as Hk; [|done]. symmetry. by apply Hlook. }
  assert (Hsk2 : sorted_keys (add_node hash r n) ≡ₚ sorted_keys r ++ node_hashes hash v n).
  { unfold add_node. cbn [sorted_keys]. rewrite merge_sort_Permutation, Hsk, Hv. done. }
  unfold entries_of. rewrite Hhr, Hsk2, filter_app, length_app. f_equal.
  case_decide as Hmn.
  - subst. rewrite filter_all_in.
    + unfold node_hashes. by rewrite length_map, length_seq.
    + intros k Hk. by apply Hlook.
  - rewrite filter_none_in; [done|].
    intros k Hk Hkm. apply Hmn.
    assert (Hkn : hash_ring r !! k = Some n) by (by apply Hlook).
    congruence.
Qed.

(** C8 (amended).  On every ring the program can build (construction, then
    any [add_node] / successful [remove_node]), [sorted_keys] is sorted.  On
    such a ring built with [add_node] only of nodes not yet present, and with
    no two virtual nodes of the present nodes hashing to the same value,
    every present node owns exactly [V] entries of the ring and every other
    node owns none; adding a present node once more gives it [2V] entries
    and leaves every other node's entries as they are. *)
Theorem tracked_ring_invariant (hash : string -> Z) (v : nat) (r : ring) :
  reachable hash v r ->
  StronglySorted Z.le (sorted_keys r) /\
  forall ns, tracked hash v ns r ->
    (forall node, entries_of r node = if decide (node ∈ ns) then v else 0%nat) /\
    (forall n m, n ∈ ns ->
       entries_of (add_node hash r n) m = if decide (m = n) then (2 * v)%nat else entries_of r m).
Proof.
  intros Hreach. split; [by apply (reachable_sorted hash v)|].
  intros ns Ht. pose proof (tracked_repr hash v ns r Ht) as Hr.
  split; [intros node; by apply (entries_of_repr hash v ns r node)|].
  intros n m Hn. rewrite (entries_of_readd hash v ns r n m Hr Hn).
  case_decide as Hmn.
  - subst. rewrite (entries_of_repr hash v ns r n Hr), decide_True by done. lia.
  - lia.
Qed.

Lemma tracked_ring_invariant_witness :
  reachable _hash 100 (ConsistentHash _hash ["a"; "b"] 100) /\
  tracked _hash 100 ["a"; "b"] (ConsistentHash _hash ["a"; "b"] 100) /\
  StronglySorted Z.le (sorted_keys (ConsistentHash _hash ["a"; "b"] 100)) /\
  entries_of (ConsistentHash _hash ["a"; "b"] 100) "b" = 100%nat /\
  entries_of (add_node _hash (ConsistentHash _hash ["a"; "b"] 100) "a") "a" = (2 * 100)%nat.
Proof.
  assert (Hre : reachable _hash 100 (ConsistentHash _hash ["a"; "b"] 100))
    by exact (reach_init _hash 100 ["a"; "b"]).
  assert (Ht : tracked _hash 100 ["a"; "b"] (ConsistentHash _hash ["a"; "b"] 100))
    by exact (tr_init _hash 100 ["a"; "b"] md5_ab_no_collision).
  assert (Ha : "a" ∈ ["a"; "b"]) by (apply elem_of_cons; by left).
  assert (Hb : "b" ∈ ["a"; "b"]) by (apply elem_of_cons; right; apply elem_of_cons; by left).
  destruct (tracked_ring_invariant _hash 100 (ConsistentHash _hash ["a"; "b"] 100) Hre) as [Hs Hinv].
  destruct (Hinv ["a"; "b"] Ht) as [He Hadd].
  split; [exact Hre|]. split; [exact Ht|]. split; [exact Hs|]. split.
  - rewrite (He "b"), decide_True by exact Hb. reflexivity.
  - rewrite (Hadd "a" "a" Ha), decide_True by reflexivity. reflexivity.
Defined.

(** C8 counterexample.  Adding node "a" a second time (nothing in [add_node]
    prevents it) leaves "a" with 200 ring entries instead of V = 100. *)
Lemma ring_double_add_counterexample :
  entries_of (add_node _hash (ConsistentHash _hash ["a"] 100) "a") "a" = 200%nat.
Proof. vm_compute. reflexivity. Qed.

(* ------------------------------------------------------------------ *)
(** ** Store and service lemmas *)

Ltac svc_simpl :=
  cbn [fst snd cache cache_ttl write_buffer last_flush_time flush_interval redis
       set_cache set_redis set_write_buffer set_last_flush_time
       consistent_hash redis_clients] in *.

Lemma redis_key_inj (a b : string) : redis_key a = redis_key b -> a = b.
Proof. unfold redis_key. simpl. intros H. by inversion H. Qed.

Lemma get_connection_ext (hash : string -> Z) (rm rm' : rman) (key : string) :
  consistent_hash rm' = consistent_hash rm ->
  (forall n, is_Some (redis_clients rm' !! n) <-> is_Some (redis_clients rm !! n)) ->
  get_connection hash rm' key = get_connection hash rm key.
Proof.
  intros Hc Hd. unfold get_connection. rewrite Hc.
  destruct (get_node hash (consistent_hash rm) key) as [node|e]; simpl; [|done].
  specialize (Hd node).
  destruct (redis_clients rm' !! node) eqn:E1, (redis_clients rm !! node) eqn:E2; try done.
  - destruct Hd as [H _]. destruct H as [? H]; [eauto|congruence].
  - destruct Hd as [_ H]. destruct H as [? H]; [eauto|congruence].
Qed.

Lemma incr_ok_ext (hash : string -> Z) ok (rm rm' : rman) (key : string) :
  consistent_hash rm' = consistent_hash rm ->
  (forall n, is_Some (redis_clients rm' !! n) <-> is_Some (redis_clients rm !! n)) ->
  incr_ok hash ok rm' key = incr_ok hash ok rm key.
Proof. intros Hc Hd. unfold incr_ok. by rewrite (get_connection_ext hash rm rm' key Hc Hd). Qed.

Lemma rm_increment_spec (hash : string -> Z) ok rm key amount rm' x :
  rm_increment hash ok rm key amount = Ok (rm', x) ->
  consistent_hash rm' = consistent_hash rm /\
  (forall n, is_Some (redis_clients rm' !! n) <-> is_Some (redis_clients rm !! n)) /\
  store_value hash rm' key = store_value hash rm key + amount /\
  (forall key', key' <> key -> store_value hash rm' key' = store_value hash rm key').
Proof.
  unfold rm_increment, get_connection, res_bind.
  destruct (get_node hash (consistent_hash rm) key) as [node|e] eqn:Hn; [|discriminate].
  destruct (redis_clients rm !! node) as [db|] eqn:Hdb; [|discriminate].
  destruct ok; [|discriminate]. intros H. inversion H; subst; clear H. svc_simpl.
  split; [done|]. split.
  { intros n'. destruct (decide (n' = node)) as [->|Hne].
    - rewrite lookup_insert_eq, Hdb. split; eauto.
    - by rewrite lookup_insert_ne. }
  split.
  - unfold store_value. svc_simpl. rewrite Hn, lookup_insert_eq, Hdb. simpl.
    by rewrite lookup_insert_eq.
  - intros key' Hne. unfold store_value. svc_simpl.
    destruct (get_node hash (consistent_hash rm) key') as [n'|e]; [|done].
    destruct (decide (n' = node)) as [->|Hn'].
    + rewrite lookup_insert_eq, Hdb. simpl. by rewrite lookup_insert_ne.
    + by rewrite lookup_insert_ne.
Qed.

Lemma rm_increment_cases (hash : string -> Z) ok rm key amount :
  (incr_ok hash ok rm key = true /\ exists rm' x, rm_increment hash ok rm key amount = Ok (rm', x)) \/
  (incr_ok hash ok rm key = false /\ exists e, rm_increment hash ok rm key amount = Err e).
Proof.
  unfold incr_ok, rm_increment, res_bind.
  destruct (get_connection hash rm key); [|right; eauto]. destruct ok; [left|right]; eauto.
Qed.

Lemma rm_get_store_value (hash : string -> Z) ok rm key x :
  rm_get hash ok rm key = Ok x -> x = store_value hash rm key.
Proof.
  unfold rm_get, get_connection, store_value, res_bind.
  destruct (get_node hash (consistent_hash rm) key) as [node|e]; [|discriminate].
  destruct (redis_clients rm !! node) as [db|] eqn:Hdb; [|discriminate].
  destruct ok; [|discriminate]. intros H. inversion H. by rewrite Hdb.
Qed.

(** Effect of one iteration of the flush loop. *)
Lemma flush_one_spec (hash : string -> Z) net s tr k c s' tr' K :
  flush_one hash net (s, tr) (k, c) = (s', tr') ->
  consistent_hash (redis s') = consistent_hash (redis s) /\
  (forall n, is_Some (redis_clients (redis s') !! n) <-> is_Some (redis_clients (redis s) !! n)) /\
  observed hash s' K = observed hash s K + (if decide (k = K) then (if 0 <? c then c else 0) else 0) /\
  write_buffer s' !! K =
    (if decide (k = K) then
       (if (0 <? c) && negb (incr_ok hash (net (redis_key k)) (redis s) (redis_key k))
        then Some (default 0 (write_buffer s !! K) + c) else write_buffer s !! K)
     else write_buffer s !! K) /\
  last_flush_time s' = last_flush_time s /\ flush_interval s' = flush_interval s /\
  cache_ttl s' = cache_ttl s /\
  tr' = tr ++ (if 0 <? c then [OpIncr (redis_key k) c] else []).
Proof.
  unfold flush_one. destruct (0 <? c) eqn:Hc.
  - destruct (rm_increment_cases hash (net (redis_key k)) (redis s) (redis_key k) c)
      as [[Hok (rm' & x & Hi)] | [Hok (e & Hi)]]; rewrite Hi; intros H; inversion H; subst; clear H;
      rewrite Hok; simpl andb; simpl negb.
    + apply rm_increment_spec in Hi as (Hring & Hdom & Hsv & Hsv').
      unfold observed. svc_simpl. do 2 (split; [done|]).
      split; [|split; [by case_decide|done]].
      case_decide as Hk.
      * subst. rewrite Hsv. lia.
      * rewrite Hsv'; [lia|]. intros Heq. by apply redis_key_inj in Heq.
    + unfold observed. svc_simpl. do 2 (split; [done|]).
      case_decide as Hk.
      * subst. rewrite lookup_insert_eq. split; [simpl; lia|]. done.
      * rewrite lookup_insert_ne by done. split; [lia|]. done.
  - intros H. inversion H; subst; clear H. rewrite app_nil_r.
    simpl andb. split; [done|]. split; [done|]. split; [|by case_decide].
    case_decide; lia.
Qed.

Lemma foldl_flush_one_spec (hash : string -> Z) net (l : list (string * Z)) s tr s' tr' K :
  NoDup l.*1 ->
  foldl (flush_one hash net) (s, tr) l = (s', tr') ->
  consistent_hash (redis s') = consistent_hash (redis s) /\
  (forall n, is_Some (redis_clients (redis s') !! n) <-> is_Some (redis_clients (redis s) !! n)) /\
  observed hash s' K = observed hash s K +
    (match (list_to_map l : gmap string Z) !! K with Some c => if 0 <? c then c else 0 | None => 0 end) /\
  write_buffer s' !! K =
    (match (list_to_map l : gmap string Z) !! K with
     | Some c =>
         if (0 <? c) && negb (incr_ok hash (net (redis_key K)) (redis s) (redis_key K))
         then Some (default 0 (write_buffer s !! K) + c) else write_buffer s !! K
     | None => write_buffer s !! K
     end) /\
  last_flush_time s' = last_flush_time s /\ flush_interval s' = flush_interval s /\
  cache_ttl s' = cache_ttl s.
Proof.
  revert s tr. induction l as [|[k c] l IH]; intros s tr Hnd Hf.
  - simpl in Hf. inversion Hf; subst. simpl. rewrite lookup_empty. split_and!; try done; lia.
  - cbn [foldl] in Hf. rewrite fmap_cons in Hnd. apply NoDup_cons in Hnd as [Hk Hnd].
    destruct (flush_one hash net (s, tr) (k, c)) as [s1 tr1] eqn:H1.
    destruct (flush_one_spec hash net s tr k c s1 tr1 K H1)
      as (Hr1 & Hd1 & Ho1 & Hw1 & Ht1 & Hi1 & Hc1 & _).
    destruct (IH s1 tr1 Hnd Hf) as (Hr2 & Hd2 & Ho2 & Hw2 & Ht2 & Hi2 & Hc2).
    assert (Hinc : forall key ok, incr_ok hash ok (redis s1) key = incr_ok hash ok (redis s) key)
      by (intros; by apply incr_ok_ext).
    rewrite list_to_map_cons.
    split; [congruence|]. split; [intros n; rewrite Hd2; apply Hd1|].
    split; [|split; [|split_and!; congruence]].
    + rewrite Ho2, Ho1. case_decide as HkK.
      * subst. rewrite lookup_insert_eq, not_elem_of_list_to_map_1 by done. lia.
      * rewrite lookup_insert_ne by done. lia.
    + rewrite Hw2, Hinc, Hw1. case_decide as HkK.
      * subst. rewrite lookup_insert_eq, not_elem_of_list_to_map_1 by done. done.
      * rewrite lookup_insert_ne by done. done.
Qed.

Lemma flush_buffer_spec (hash : string -> Z) net t s s' tr K :
  flush_buffer hash net t s = (s', tr) ->
  consistent_hash (redis s') = consistent_hash (redis s) /\
  (forall n, is_Some (redis_clients (redis s') !! n) <-> is_Some (redis_clients (redis s) !! n)) /\
  store_value hash (redis s') (redis_key K) =
    store_value hash (redis s) (redis_key K) +
    (match write_buffer s !! K with
     | Some c => if (0 <? c) && incr_ok hash (net (redis_key K)) (redis s) (redis_key K) then c else 0
     | None => 0 end) /\
  write_buffer s' !! K =
    (match write_buffer s !! K with
     | Some c =>
         if (0 <? c) && negb (incr_ok hash (net (redis_key K)) (redis s) (redis_key K))
         then Some c else None
     | None => None
     end) /\
  flush_interval s' = flush_interval s /\ cache_ttl s' = cache_ttl s.
Proof.
  unfold flush_buffer. case_decide as Hemp.
  - intros H. inversion H; subst. rewrite Hemp, lookup_empty. split_and!; try done; lia.
  - destruct (foldl (flush_one hash net) (set_write_buffer s ∅, []) (map_to_list (write_buffer s)))
      as [s2 tr2] eqn:Hf. intros H. inversion H; subst; clear H.
    destruct (foldl_flush_one_spec hash net _ _ _ _ _ K (NoDup_fst_map_to_list _) Hf)
      as (Hr & Hd & Ho & Hw & _ & Hi & Hc).
    rewrite list_to_map_to_list in Ho, Hw. svc_simpl.
    rewrite lookup_empty in Hw. unfold observed in Ho. svc_simpl. rewrite lookup_empty in Ho.
    split_and!; try done.
    + rewrite Hw in Ho. revert Ho.
      destruct (write_buffer s !! K) as [c|]; simpl; [|lia].
      destruct (0 <? c), (incr_ok hash (net (redis_key K)) (redis s) (redis_key K)); simpl; lia.
Qed.

(** A flush leaves a page's observed count unchanged when its pending count
    is non-negative. *)
Lemma flush_buffer_observed (hash : string -> Z) net t s s' tr K :
  (forall c, write_buffer s !! K = Some c -> 0 <= c) ->
  flush_buffer hash net t s = (s', tr) ->
  observed hash s' K = observed hash s K.
Proof.
  intros Hnn Hf. destruct (flush_buffer_spec hash net t s s' tr K Hf) as (_ & _ & Hs & Hw & _).
  unfold observed. rewrite Hs, Hw.
  destruct (write_buffer s !! K) as [c|] eqn:Hc; [|simpl; lia].
  specialize (Hnn c eq_refl).
  destruct (Z.ltb_spec 0 c), (incr_ok hash (net (redis_key K)) (redis s) (redis_key K)); simpl; lia.
Qed.

Lemma flush_buffer_nonneg (hash : string -> Z) net t s s' tr K :
  (forall c, write_buffer s !! K = Some c -> 0 <= c) ->
  flush_buffer hash net t s = (s', tr) ->
  forall c, write_buffer s' !! K = Some c -> 0 <= c.
Proof.
  intros Hnn Hf c. destruct (flush_buffer_spec hash net t s s' tr K Hf) as (_ & _ & _ & Hw & _).
  rewrite Hw. destruct (write_buffer s !! K) as [c0|]; [|done].
  specialize (Hnn c0 eq_refl).
  destruct ((0 <? c0) && _); [intros H; inversion H; lia|done].
Qed.

Lemma increments_spec (ps : list string) (s : svc) (K : string) :
  redis (increments ps s) = redis s /\
  default 0 (write_buffer (increments ps s) !! K) =
    default 0 (write_buffer s !! K) + Z.of_nat (length (filter (fun q => q = K) ps)) /\
  ((forall c, write_buffer s !! K = Some c -> 0 <= c) ->
   forall c, write_buffer (increments ps s) !! K = Some c -> 0 <= c) /\
  flush_interval (increments ps s) = flush_interval s /\
  last_flush_time (increments ps s) = last_flush_time s /\
  cache_ttl (increments ps s) = cache_ttl s.
Proof.
  unfold increments. revert s. induction ps as [|q ps IH]; intros s.
  - simpl. split_and!; auto; lia.
  - cbn [foldl]. destruct (IH (increment_visit q s)) as (Hr & Hw & Hn & Hi & Hl & Hc).
    unfold increment_visit in *. svc_simpl.
    rewrite Hr, Hw, Hi, Hl, Hc. rewrite filter_cons.
    split; [done|]. split; [|split; [|done]].
    + destruct (decide (q = K)) as [->|Hne].
      * rewrite lookup_insert_eq. simpl length. simpl. lia.
      * rewrite lookup_insert_ne by done. done.
    + intros Hnn. apply Hn. destruct (decide (q = K)) as [->|Hne].
      * rewrite lookup_insert_eq. intros c H. inversion H.
        destruct (write_buffer s !! K) as [c0|]; simpl; [specialize (Hnn c0 eq_refl)|]; lia.
      * rewrite lookup_insert_ne by done. done.
Qed.

(** A read served from the store returns the observed count. *)
Lemma read_through_value (hash : string -> Z) netf getok now tf K s s' v src :
  (forall c, write_buffer s !! K = Some c -> 0 <= c) ->
  read_through hash netf getok now tf K s = (s', Ok (v, src)) ->
  v = observed hash s K /\ observed hash s' K = observed hash s K.
Proof.
  intros Hnn. unfold read_through.
  assert (Hs1 : observed hash (if flush_due now s then fst (flush_buffer hash netf tf s) else s) K
                = observed hash s K).
  { destruct (flush_due now s); [|done].
    destruct (flush_buffer hash netf tf s) as [s1 tr] eqn:Hf. simpl.
    exact (flush_buffer_observed hash netf tf s s1 tr K Hnn Hf). }
  revert Hs1. generalize (if flush_due now s then fst (flush_buffer hash netf tf s) else s).
  intros s1 Hs1.
  destruct (rm_get hash getok (redis s1) (redis_key K)) as [x|e] eqn:Hg; [|discriminate].
  intros H. inversion H; subst; clear H.
  apply rm_get_store_value in Hg. subst. rewrite <- Hs1. split; reflexivity.
Qed.

(* ------------------------------------------------------------------ *)
(** ** Claims on the service *)

(** C1.  After any sequence [ps] of increments issued with no flush in
    between, a read of [K] that misses the cache (answer tagged [Redis])
    returns the stored value before the increments plus the number of
    increments of [K] in [ps]; the pending count is not consumed by the read
    (the observed count after the read is the returned value). *)
Theorem get_visit_count_pending (hash : string -> Z) netf getok now tf (K : string)
    (s : svc) (ps : list string) (s' : svc) (v : Z) :
  write_buffer s !! K = None ->
  get_visit_count hash netf getok now tf K (increments ps s) = (s', Ok (v, Redis)) ->
  v = store_value hash (redis s) (redis_key K) + Z.of_nat (length (filter (fun q => q = K) ps)) /\
  observed hash s' K = v.
Proof.
  intros Hnone Hg. destruct (increments_spec ps s K) as (Hr & Hw & Hn & _).
  assert (Hnn : forall c, write_buffer (increments ps s) !! K = Some c -> 0 <= c)
    by (apply Hn; by rewrite Hnone).
  assert (Hobs : observed hash (increments ps s) K =
                 store_value hash (redis s) (redis_key K) + Z.of_nat (length (filter (fun q => q = K) ps))).
  { unfold observed. rewrite Hr, Hw, Hnone. simpl. lia. }
  unfold get_visit_count in Hg.
  destruct (cache (increments ps s) !! K) as [[cnt ex]|].
  - destruct (qlt now ex); [discriminate|].
    destruct (read_through_value hash netf getok now tf K
      (set_cache (increments ps s) (delete K (cache (increments ps s)))) s' v Redis Hnn Hg) as [Hv Hs'].
    unfold observed in Hv, Hs' at 2. svc_simpl. fold (observed hash (increments ps s) K) in Hv, Hs'.
    split; congruence.
  - destruct (read_through_value hash netf getok now tf K _ s' v Redis Hnn Hg) as [Hv Hs'].
    split; congruence.
Qed.

Lemma get_visit_count_pending_witness :
  write_buffer (example_svc ∅) !! "p" = None /\
  get_visit_count _hash (fun _ => true) true 0%Q 0%Q "p" (increments ["p"; "p"] (example_svc ∅)) =
    (fst (get_visit_count _hash (fun _ => true) true 0%Q 0%Q "p" (increments ["p"; "p"] (example_svc ∅))),
     Ok (2, Redis)) /\
  2 = store_value _hash (redis (example_svc ∅)) (redis_key "p") +
      Z.of_nat (length (filter (fun q => q = "p") ["p"; "p"])).
Proof.
  assert (H1 : write_buffer (example_svc ∅) !! "p" = None) by reflexivity.
  assert (H2 : get_visit_count _hash (fun _ => true) true 0%Q 0%Q "p" (increments ["p"; "p"] (example_svc ∅)) =
    (fst (get_visit_count _hash (fun _ => true) true 0%Q 0%Q "p" (increments ["p"; "p"] (example_svc ∅))),
     Ok (2, Redis))) by (vm_compute; reflexivity).
  split; [exact H1|]. split; [exact H2|].
  exact (proj1 (get_visit_count_pending _hash (fun _ => true) true 0%Q 0%Q "p" (example_svc ∅) ["p"; "p"]
    _ 2 H1 H2)).
Defined.

(** C2.  When the store increment for [K] fails during a flush, [K]'s
    snapshot count [p] is put back into the buffer and the store is left as
    it was for [K]; after increments [ps], a flush in which the store
    increment for [K] succeeds raises [K]'s stored value by exactly [p] plus
    the increments of [K] in [ps], and empties [K]'s buffer entry. *)
Theorem failed_flush_readds (hash : string -> Z) net1 net2 t1 t2 (s s1 s3 : svc) tr1 tr3
    (ps : list string) (K : string) (p : Z) :
  write_buffer s !! K = Some p -> 0 < p ->
  incr_ok hash (net1 (redis_key K)) (redis s) (redis_key K) = false ->
  incr_ok hash (net2 (redis_key K)) (redis s) (redis_key K) = true ->
  flush_buffer hash net1 t1 s = (s1, tr1) ->
  flush_buffer hash net2 t2 (increments ps s1) = (s3, tr3) ->
  write_buffer s1 !! K = Some p /\
  store_value hash (redis s1) (redis_key K) = store_value hash (redis s) (redis_key K) /\
  store_value hash (redis s3) (redis_key K) =
    store_value hash (redis s) (redis_key K) + p + Z.of_nat (length (filter (fun q => q = K) ps)) /\
  write_buffer s3 !! K = None.
Proof.
  intros Hwp Hp Hok1 Hok2 Hf1 Hf2.
  destruct (flush_buffer_spec hash net1 t1 s s1 tr1 K Hf1) as (Hr1 & Hd1 & Hs1 & Hw1 & _).
  rewrite Hwp in Hs1, Hw1. apply Z.ltb_lt in Hp as Hpb. rewrite Hpb, Hok1 in Hs1, Hw1.
  simpl in Hs1, Hw1.
  destruct (increments_spec ps s1 K) as (Hr2 & Hw2 & _).
  destruct (write_buffer (increments ps s1) !! K) as [c|] eqn:Hc; rewrite Hw1 in Hw2; simpl in Hw2;
    [|lia].
  destruct (flush_buffer_spec hash net2 t2 (increments ps s1) s3 tr3 K Hf2) as (_ & _ & Hs3 & Hw3 & _).
  rewrite Hc in Hs3, Hw3.
  assert (Hok2' : incr_ok hash (net2 (redis_key K)) (redis (increments ps s1)) (redis_key K) = true).
  { rewrite Hr2, (incr_ok_ext hash _ (redis s) (redis s1) _ Hr1 Hd1). exact Hok2. }
  assert (Hcb : (0 <? c) = true) by (apply Z.ltb_lt; lia).
  rewrite Hok2', Hcb in Hs3, Hw3. simpl in Hs3, Hw3.
  rewrite Hr2 in Hs3. split_and!; [done|lia|lia|done].
Qed.

Lemma failed_flush_readds_witness :
  write_buffer (example_svc {["p" := 3]}) !! "p" = Some 3 /\
  incr_ok _hash false example_rman (redis_key "p") = false /\
  incr_ok _hash true example_rman (redis_key "p") = true /\
  store_value _hash
    (redis (fst (flush_buffer _hash (fun _ => true) 2%Q
       (increments ["p"] (fst (flush_buffer _hash (fun _ => false) 1%Q (example_svc {["p" := 3]})))))))
    (redis_key "p") = 4.
Proof.
  assert (H1 : write_buffer (example_svc {["p" := 3]}) !! "p" = Some 3) by reflexivity.
  assert (H2 : incr_ok _hash false example_rman (redis_key "p") = false) by (vm_compute; reflexivity).
  assert (H3 : incr_ok _hash true example_rman (redis_key "p") = true) by (vm_compute; reflexivity).
  assert (H0 : store_value _hash example_rman (redis_key "p") = 0) by (vm_compute; reflexivity).
  destruct (failed_flush_readds _hash (fun _ => false) (fun _ => true) 1%Q 2%Q (example_svc {["p" := 3]})
    (fst (flush_buffer _hash (fun _ => false) 1%Q (example_svc {["p" := 3]})))
    (fst (flush_buffer _hash (fun _ => true) 2%Q
       (increments ["p"] (fst (flush_buffer _hash (fun _ => false) 1%Q (example_svc {["p" := 3]}))))))
    (snd (flush_buffer _hash (fun _ => false) 1%Q (example_svc {["p" := 3]})))
    (snd (flush_buffer _hash (fun _ => true) 2%Q
       (increments ["p"] (fst (flush_buffer _hash (fun _ => false) 1%Q (example_svc {["p" := 3]}))))))
    ["p"] "p" 3 H1 ltac:(lia) H2 H3 (surjective_pairing _) (surjective_pairing _))
    as (_ & _ & Hs & _).
  split; [exact H1|]. split; [exact H2|]. split; [exact H3|].
  rewrite Hs. change (redis (example_svc {["p" := 3]})) with example_rman. rewrite H0. reflexivity.
Defined.

(** C5.  [increment_visit K] raises [K]'s pending count by one and removes
    [K]'s cache entry; every other pending count and cache entry, the store
    manager (ring and stored values), the cache TTL, the flush interval and
    [last_flush_time] are unchanged. *)
Theorem increment_visit_frame (s : svc) (K : string) :
  write_buffer (increment_visit K s) !! K = Some (default 0 (write_buffer s !! K) + 1) /\
  (forall k, k <> K -> write_buffer (increment_visit K s) !! k = write_buffer s !! k) /\
  cache (increment_visit K s) !! K = None /\
  (forall k, k <> K -> cache (increment_visit K s) !! k = cache s !! k) /\
  redis (increment_visit K s) = redis s /\
  last_flush_time (increment_visit K s) = last_flush_time s /\
  flush_interval (increment_visit K s) = flush_interval s /\
  cache_ttl (increment_visit K s) = cache_ttl s.
Proof.
  unfold increment_visit. svc_simpl. split_and!; try done.
  - apply lookup_insert_eq.
  - intros k Hk. apply lookup_insert_ne. congruence.
  - apply lookup_delete_eq.
  - intros k Hk. apply lookup_delete_ne. congruence.
Qed.

(** C6.  If every store increment of the first flush succeeds, the buffer
    is empty after it, and a second flush issues no store operation and
    changes nothing. *)
Theorem flush_twice_idempotent (hash : string -> Z) net net' t1 t2 (s s1 : svc) tr1 :
  (forall k c, write_buffer s !! k = Some c -> 0 < c ->
     incr_ok hash (net (redis_key k)) (redis s) (redis_key k) = true) ->
  flush_buffer hash net t1 s = (s1, tr1) ->
  write_buffer s1 = ∅ /\ flush_buffer hash net' t2 s1 = (s1, []).
Proof.
  intros Hok Hf.
  assert (Hw : write_buffer s1 = ∅).
  { apply map_eq. intros K. rewrite lookup_empty.
    destruct (flush_buffer_spec hash net t1 s s1 tr1 K Hf) as (_ & _ & _ & Hw & _).
    rewrite Hw. destruct (write_buffer s !! K) as [c|] eqn:Hc; [|done].
    destruct (Z.ltb_spec 0 c); simpl; [|done].
    rewrite (Hok K c Hc) by lia. done. }
  split; [done|]. unfold flush_buffer. rewrite decide_True by done. done.
Qed.

Lemma flush_twice_idempotent_witness :
  (forall k c, write_buffer (example_svc {["p" := 3]}) !! k = Some c -> 0 < c ->
     incr_ok _hash true example_rman (redis_key k) = true) /\
  flush_buffer _hash (fun _ => true) 2%Q
    (fst (flush_buffer _hash (fun _ => true) 1%Q (example_svc {["p" := 3]}))) =
  (fst (flush_buffer _hash (fun _ => true) 1%Q (example_svc {["p" := 3]})), []).
Proof.
  assert (Hok : forall k c, write_buffer (example_svc {["p" := 3]}) !! k = Some c -> 0 < c ->
     incr_ok _hash true example_rman (redis_key k) = true).
  { intros k c Hk _. cbn [write_buffer example_svc] in Hk.
    apply lookup_singleton_Some in Hk as [<- _]. vm_compute. reflexivity. }
  split; [exact Hok|].
  exact (proj2 (flush_twice_idempotent _hash (fun _ => true) (fun _ => true) 1%Q 2%Q
    (example_svc {["p" := 3]}) (fst (flush_buffer _hash (fun _ => true) 1%Q (example_svc {["p" := 3]})))
    (snd (flush_buffer _hash (fun _ => true) 1%Q (example_svc {["p" := 3]})))
    Hok (surjective_pairing _))).
Defined.

(** C9.  When the ring resolves [key] to a node that has a client and the
    key is absent there, [get] returns 0 on a working connection, and a
    failing connection is reported as the error [ConnFailed]. *)
Theorem rm_get_absent_zero (hash : string -> Z) (rm : rman) (key node : string) (db : gmap string Z) :
  get_node hash (consistent_hash rm) key = Ok node ->
  redis_clients rm !! node = Some db ->
  db !! key = None ->
  rm_get hash true rm key = Ok 0 /\ rm_get hash false rm key = Err ConnFailed.
Proof.
  intros Hn Hc Hk. unfold rm_get, get_connection, res_bind.
  rewrite Hn, Hc. simpl. rewrite Hc. simpl. rewrite Hk. done.
Qed.

Lemma rm_get_absent_zero_witness :
  get_node _hash (consistent_hash example_rman) (redis_key "p") = Ok "a" /\
  redis_clients example_rman !! "a" = Some ∅ /\
  rm_get _hash true example_rman (redis_key "p") = Ok 0.
Proof.
  assert (H1 : get_node _hash (consistent_hash example_rman) (redis_key "p") = Ok "a")
    by (vm_compute; reflexivity).
  assert (H2 : redis_clients example_rman !! "a" = Some ∅) by reflexivity.
  split; [exact H1|]. split; [exact H2|].
  exact (proj1 (rm_get_absent_zero _hash example_rman (redis_key "p") "a" ∅ H1 H2 eq_refl)).
Defined.

(** C10.  A flush of an empty buffer issues no store operation and returns
    the state unchanged, [last_flush_time] included, so the catch-up test of
    a later read gives the same answer as before the flush. *)
Theorem flush_empty_buffer_noop (hash : string -> Z) net t (s : svc) :
  write_buffer s = ∅ ->
  flush_buffer hash net t s = (s, []) /\
  forall now, flush_due now (fst (flush_buffer hash net t s)) = flush_due now s.
Proof.
  intros Hw. unfold flush_buffer. rewrite decide_True by done. split; done.
Qed.

Lemma flush_empty_buffer_noop_witness :
  flush_due 20%Q (example_svc ∅) = true /\
  flush_due 20%Q (fst (flush_buffer _hash (fun _ => true) 15%Q (example_svc ∅))) = true.
Proof.
  assert (Hd : flush_due 20%Q (example_svc ∅) = true) by reflexivity.
  split; [exact Hd|].
  rewrite (proj2 (flush_empty_buffer_noop _hash (fun _ => true) 15%Q (example_svc ∅) eq_refl)).
  exact Hd.
Defined.

(** C4 (divergence).  [CacheService.get] treats an entry as expired only
    when [now > expiration]: an entry set at [t] is still a hit at exactly
    [t + ttl_seconds], where the claim (and the service's own cache test
    [current_time < expiration]) has a miss. *)
Theorem cache_service_hit_at_expiry {A} (t : Q) (key : string) (value : A) (c : cache_service A) :
  snd (cs_get (t + ttl_seconds c)%Q key (cs_set t key value c)) = (Some value, true).
Proof.
  unfold cs_get, cs_set. cbn [cs_entries ttl_seconds]. rewrite lookup_insert_eq.
  unfold qlt. assert (Hle : Qle_bool (t + ttl_seconds c) (t + ttl_seconds c) = true)
    by (apply Qle_bool_iff; apply Qle_refl).
  rewrite Hle. reflexivity.
Qed.


(* ================================================================== *)
(** * Further properties of the code *)

(** ** The successor rule on sorted rings *)

Lemma find_ltb_sorted (h x : Z) (l : list Z) :
  StronglySorted Z.le l -> find (Z.ltb h) l = Some x ->
  x ∈ l /\ h < x /\ forall y, y ∈ l -> h < y -> x <= y.
Proof.
  induction l as [|a l IH]; intros Hs Hf; [done|].
  inversion Hs as [|? ? Hs' Hfa]; subst. simpl in Hf.
  destruct (Z.ltb_spec h a) as [Ha|Ha].
  - inversion Hf; subst. split; [apply elem_of_cons; by left|]. split; [done|].
    intros y Hy _. apply elem_of_cons in Hy as [-> | Hy]; [lia|].
    rewrite Forall_forall in Hfa. by apply Hfa.
  - destruct (IH Hs' Hf) as (Hx & Hhx & Hmin). split; [apply elem_of_cons; by right|].
    split; [done|]. intros y Hy Hhy. apply elem_of_cons in Hy as [-> | Hy]; [lia|]. auto.
Qed.

Lemma find_ltb_None (h : Z) (l : list Z) :
  find (Z.ltb h) l = None -> forall y, y ∈ l -> y <= h.
Proof.
  intros Hf y Hy. apply list_elem_of_In in Hy.
  pose proof (find_none _ _ Hf y Hy) as H. simpl in H. apply Z.ltb_ge in H. done.
Qed.

Lemma ring_successor_None (h : Z) (l : list Z) :
  ring_successor (Z.ltb h) l = None <-> l = [].
Proof.
  unfold ring_successor. split; [|intros ->; done].
  destruct (find (Z.ltb h) l); [done|]. destruct l; done.
Qed.

Lemma ring_successor_spec (h x : Z) (l : list Z) :
  StronglySorted Z.le l -> ring_successor (Z.ltb h) l = Some x ->
  x ∈ l /\ ((h < x /\ forall y, y ∈ l -> h < y -> x <= y) \/
            ((forall y, y ∈ l -> y <= h) /\ forall y, y ∈ l -> x <= y)).
Proof.
  intros Hs. unfold ring_successor.
  destruct (find (Z.ltb h) l) as [z|] eqn:Hf.
  - intros [= <-]. destruct (find_ltb_sorted h z l Hs Hf) as (? & ? & ?). auto.
  - destruct l as [|a l]; [done|]. intros [= <-].
    inversion Hs as [|? ? _ Hfa]; subst. split; [apply elem_of_cons; by left|].
    right. split; [by apply find_ltb_None|].
    intros y Hy. apply elem_of_cons in Hy as [-> | Hy]; [lia|].
    rewrite Forall_forall in Hfa. by apply Hfa.
Qed.

(** The successor in a larger sorted ring, when it is an entry of the smaller
    one, is also the successor in the smaller one. *)
Lemma ring_successor_subset (h x : Z) (l l' : list Z) :
  StronglySorted Z.le l -> StronglySorted Z.le l' -> (forall y, y ∈ l -> y ∈ l') ->
  ring_successor (Z.ltb h) l' = Some x -> x ∈ l -> ring_successor (Z.ltb h) l = Some x.
Proof.
  intros Hs Hs' Hsub Hx' Hx.
  destruct (ring_successor (Z.ltb h) l) as [y|] eqn:Hy.
  - destruct (ring_successor_spec h y l Hs Hy) as (Hyl & Hyc).
    destruct (ring_successor_spec h x l' Hs' Hx') as (_ & Hxc).
    pose proof (Hsub y Hyl) as Hyl'. f_equal.
    destruct Hyc as [[Hhy Hymin] | [Hyall Hymin]], Hxc as [[Hhx Hxmin] | [Hxall Hxmin]].
    + specialize (Hymin x Hx Hhx). specialize (Hxmin y Hyl' Hhy). lia.
    + specialize (Hxall y Hyl'). lia.
    + specialize (Hyall x Hx). lia.
    + specialize (Hymin x Hx). specialize (Hxmin y Hyl'). lia.
  - apply ring_successor_None in Hy. subst. by apply not_elem_of_nil in Hx.
Qed.

(** ** [get_node] on rings with the representation invariant *)

Lemma repr_key_in (hash : string -> Z) (v : nat) (ns : list string) (r : ring) (k : Z) :
  ring_repr hash v ns r -> k ∈ sorted_keys r <-> exists m, hash_ring r !! k = Some m.
Proof.
  intros (_ & Hperm & _ & _ & Hlook). rewrite Hperm, elem_of_vnode_hashes.
  setoid_rewrite Hlook. done.
Qed.

(** On such rings [get_node] is the successor rule, with [RingEmpty] for the
    ring without entries. *)
Lemma get_node_repr (hash : string -> Z) (v : nat) (ns : list string) (r : ring) (key : string) :
  ring_repr hash v ns r ->
  get_node hash r key =
    match ring_successor (Z.ltb (hash key)) (sorted_keys r) with
    | None => Err RingEmpty
    | Some k => match hash_ring r !! k with Some m => Ok m | None => Err KeyErr end
    end.
Proof.
  intros Hr. pose proof Hr as (_ & _ & Hs & _ & _).
  rewrite get_node_locate_gt by done. unfold locate_by. case_decide as He.
  - destruct (sorted_keys r) as [|k sk] eqn:Hsk; [done|].
    exfalso. assert (Hk : k ∈ sorted_keys r) by (rewrite Hsk; apply elem_of_cons; by left).
    apply (repr_key_in hash v ns r k Hr) in Hk as [m Hm]. rewrite He, lookup_empty in Hm. done.
  - destruct (ring_successor (Z.ltb (hash key)) (sorted_keys r)) eqn:Hsucc; [done|].
    exfalso. apply ring_successor_None in Hsucc.
    apply map_choose in He as (k & m & Hm).
    assert (Hk : k ∈ sorted_keys r) by (apply (repr_key_in hash v ns r k Hr); eauto).
    rewrite Hsucc in Hk. by apply not_elem_of_nil in Hk.
Qed.

Lemma get_node_repr_Ok (hash : string -> Z) (v : nat) (ns : list string) (r : ring) (key m : string) :
  ring_repr hash v ns r -> get_node hash r key = Ok m -> m ∈ ns.
Proof.
  intros Hr. rewrite (get_node_repr hash v ns r key Hr).
  destruct (ring_successor _ _) as [k|]; [|done].
  destruct (hash_ring r !! k) as [m'|] eqn:Hk; [|done]. intros [= <-].
  pose proof Hr as (_ & _ & _ & _ & Hlook). by apply Hlook in Hk as [? _].
Qed.

(** Growing the set of nodes moves a key only to one of the new nodes. *)
Lemma get_node_repr_subset (hash : string -> Z) (v : nat) (ns ns' : list string) (r r' : ring) (key : string) :
  ring_repr hash v ns r -> ring_repr hash v ns' r' -> (forall m, m ∈ ns -> m ∈ ns') ->
  get_node hash r' key = get_node hash r key \/
  exists m, get_node hash r' key = Ok m /\ m ∈ ns' /\ m ∉ ns.
Proof.
  intros Hr Hr' Hsub.
  pose proof Hr as (_ & _ & Hs & _ & Hlook). pose proof Hr' as (_ & _ & Hs' & _ & Hlook').
  assert (Hsk : forall y, y ∈ sorted_keys r -> y ∈ sorted_keys r').
  { intros y Hy. apply (repr_key_in hash v ns r y Hr) in Hy as [m Hm].
    apply (repr_key_in hash v ns' r' y Hr'). exists m.
    apply Hlook in Hm as [Hm Hy]. apply Hlook'. auto. }
  rewrite (get_node_repr hash v ns r key Hr), (get_node_repr hash v ns' r' key Hr').
  destruct (ring_successor (Z.ltb (hash key)) (sorted_keys r')) as [x|] eqn:Hx.
  - destruct (ring_successor_spec _ _ _ Hs' Hx) as [Hxin _].
    apply (repr_key_in hash v ns' r' x Hr') in Hxin as [m Hm]. rewrite Hm.
    destruct (decide (m ∈ ns)) as [Hmns|Hmns].
    + left. apply Hlook' in Hm as Hm'. destruct Hm' as [_ Hxm].
      assert (Hmr : hash_ring r !! x = Some m) by (apply Hlook; auto).
      assert (Hxr : x ∈ sorted_keys r) by (apply (repr_key_in hash v ns r x Hr); eauto).
      rewrite (ring_successor_subset _ _ _ _ Hs Hs' Hsk Hx Hxr), Hmr. done.
    + right. exists m. split; [done|]. split; [|done]. by apply Hlook' in Hm as [? _].
  - left. apply ring_successor_None in Hx.
    destruct (sorted_keys r) as [|y sk] eqn:E.
    + done.
    + exfalso. assert (Hy : y ∈ sorted_keys r') by (apply Hsk; apply elem_of_cons; by left).
      rewrite Hx in Hy. by apply not_elem_of_nil in Hy.
Qed.

Lemma vnode_hashes_nil (hash : string -> Z) (v : nat) (ns : list string) :
  vnode_hashes hash v ns = [] <-> ns = [] \/ v = 0%nat.
Proof.
  induction ns as [|n ns IH]; [split; auto|].
  change (vnode_hashes hash v (n :: ns)) with (node_hashes hash v n ++ vnode_hashes hash v ns).
  rewrite app_nil, IH. unfold node_hashes.
  destruct v as [|v]; [simpl; split; auto|].
  split; [intros [H _]; done | intros [H|H]; done].
Qed.

Lemma vnode_hashes_perm (hash : string -> Z) (v : nat) (ns ns' : list string) :
  ns ≡ₚ ns' -> vnode_hashes hash v ns ≡ₚ vnode_hashes hash v ns'.
Proof.
  induction 1 as [|x l l' _ IH|x y l|l l' l'' _ IH1 _ IH2].
  - done.
  - change (vnode_hashes hash v (x :: l)) with (node_hashes hash v x ++ vnode_hashes hash v l).
    change (vnode_hashes hash v (x :: l')) with (node_hashes hash v x ++ vnode_hashes hash v l').
    by rewrite IH.
  - change (vnode_hashes hash v (y :: x :: l))
      with (node_hashes hash v y ++ node_hashes hash v x ++ vnode_hashes hash v l).
    change (vnode_hashes hash v (x :: y :: l))
      with (node_hashes hash v x ++ node_hashes hash v y ++ vnode_hashes hash v l).
    rewrite !app_assoc. by rewrite (Permutation_app_comm (node_hashes hash v y)).
  - by rewrite IH1.
Qed.

(** ** Rings built by [ConsistentHash] and [add_node] *)

Lemma built_inv_empty (hash : string -> Z) (v : nat) : built_inv hash v [] (mk_ring v ∅ []).
Proof.
  unfold built_inv. cbn [virtual_nodes sorted_keys hash_ring]. split; [done|]. split.
  - intros k. rewrite lookup_empty. split; [intros Hk; by apply not_elem_of_nil in Hk | intros [? ?]; done].
  - split; [intros k m; by rewrite lookup_empty|]. split; auto.
Qed.

Lemma built_inv_add (hash : string -> Z) (v : nat) (ns : list string) (r : ring) (n : string) :
  built_inv hash v ns r -> built_inv hash v (ns ++ [n]) (add_node hash r n).
Proof.
  intros (Hv & Hdom & Hnodes & Hemp).
  destruct (add_vnodes_keys hash n (seq 0 (virtual_nodes r)) r) as [Hv' Hsk'].
  unfold built_inv, add_node. cbv zeta. cbn [virtual_nodes hash_ring sorted_keys].
  rewrite Hv', Hsk', Hv. split; [done|]. split; [|split].
  - intros k. rewrite merge_sort_Permutation, add_vnodes_lookup, ?Hv, elem_of_app, Hdom.
    case_decide as Hk; split; try naive_solver.
  - intros k m. rewrite add_vnodes_lookup. case_decide as Hk.
    + intros [= <-]. apply elem_of_app. right. by apply list_elem_of_singleton.
    + intros Hm. apply elem_of_app. left. eauto.
  - split.
    + intros He. destruct v as [|v]; [by right|]. exfalso.
      assert (H0 : hash_ring (foldl (add_vnode hash n) r (seq 0 (S v))) !! hash (vnode_key n 0) = Some n).
      { rewrite add_vnodes_lookup, ?Hv, decide_True; [done|].
        apply list_elem_of_fmap. exists 0%nat. split; [done|]. apply elem_of_seq. lia. }
      rewrite He, lookup_empty in H0. done.
    + intros [H | ->].
      * apply app_nil in H as [_ H]. done.
      * apply map_eq. intros k. rewrite add_vnodes_lookup, ?Hv, lookup_empty. simpl.
        assert (He : hash_ring r = ∅) by (apply Hemp; by right). by rewrite He, lookup_empty.
Qed.

Lemma built_inv_ConsistentHash (hash : string -> Z) (v : nat) (nodes : list string) :
  built_inv hash v nodes (ConsistentHash hash nodes v).
Proof.
  unfold ConsistentHash.
  cut (forall ns0 r, built_inv hash v ns0 r ->
         built_inv hash v (ns0 ++ nodes) (foldl (add_node hash) r nodes)).
  { intros H. apply (H []). apply built_inv_empty. }
  induction nodes as [|n ns IH]; intros ns0 r Hr; simpl.
  - by rewrite app_nil_r.
  - replace (ns0 ++ n :: ns) with ((ns0 ++ [n]) ++ ns) by by rewrite <- app_assoc.
    apply IH. by apply built_inv_add.
Qed.

Lemma get_node_built (hash : string -> Z) (v : nat) (ns : list string) (r : ring) (key : string) :
  built_inv hash v ns r ->
  ((ns = [] \/ v = 0%nat) -> get_node hash r key = Err RingEmpty) /\
  (ns <> [] -> v <> 0%nat -> exists m, get_node hash r key = Ok m /\ m ∈ ns).
Proof.
  intros (Hv & Hdom & Hnodes & Hemp). unfold get_node. case_decide as He.
  - split; [done|]. intros Hns Hv0. apply Hemp in He as [? | ?]; done.
  - split; [intros H; by apply Hemp in H|]. intros _ _.
    apply map_choose in He as (k0 & m0 & Hk0).
    assert (Hk0' : k0 ∈ sorted_keys r) by (apply Hdom; eauto).
    assert (Hlen : (length (sorted_keys r) <> 0)%nat).
    { intros Hl. apply length_zero_iff_nil in Hl. rewrite Hl in Hk0'. by apply not_elem_of_nil in Hk0'. }
    apply Nat.eqb_neq in Hlen as Hlenb. rewrite Hlenb.
    destruct (lookup_lt_is_Some_2 (sorted_keys r) (bisect (sorted_keys r) (hash key) mod length (sorted_keys r)))
      as [k Hk]; [apply Nat.mod_upper_bound; lia|].
    rewrite Hk. apply list_elem_of_lookup_2 in Hk. apply Hdom in Hk as [m Hm]. rewrite Hm.
    exists m. split; [done|]. eauto.
Qed.

Lemma clients_lookup (dbs : string -> gmap string Z) (l : list string) (c0 : gmap string (gmap string Z)) (m : string) :
  foldl (fun clients node => <[node := dbs node]> clients) c0 l !! m =
    if decide (m ∈ l) then Some (dbs m) else c0 !! m.
Proof.
  revert c0. induction l as [|n l IH]; intros c0; simpl.
  - done.
  - rewrite IH. destruct (decide (m ∈ l)) as [Hl|Hl].
    + rewrite decide_True; [done|]. apply elem_of_cons. by right.
    + destruct (decide (m = n)) as [->|Hmn].
      * rewrite decide_True by (apply elem_of_cons; by left). apply lookup_insert_eq.
      * rewrite decide_False by (rewrite elem_of_cons; intros [?|?]; done). by apply lookup_insert_ne.
Qed.

Lemma init_clients_fold (from_url_ok : string -> bool) (dbs : string -> gmap string Z)
    (l : list string) (c0 : gmap string (gmap string Z)) :
  foldl (fun acc node => res_bind acc (fun clients =>
           if from_url_ok node then Ok (<[node := dbs node]> clients) else Err ValueErr))
    (Ok c0) l =
  if forallb from_url_ok l then Ok (foldl (fun clients node => <[node := dbs node]> clients) c0 l)
  else Err ValueErr.
Proof.
  revert c0. induction l as [|n l IH]; intros c0; [done|]. cbn [foldl forallb res_bind].
  destruct (from_url_ok n); simpl; [apply IH|].
  clear IH. induction l as [|n' l IH]; [done|]. simpl. apply IH.
Qed.

(** Every key of [hash_ring] is an entry of [sorted_keys], on every ring the
    program can build (duplicates and collisions included). *)
Lemma reachable_dom (hash : string -> Z) (v : nat) (r : ring) :
  reachable hash v r -> forall k, is_Some (hash_ring r !! k) -> k ∈ sorted_keys r.
Proof.
  induction 1 as [nodes | r n Hr IH | r node r' Hr IH Hrm]; intros k Hk.
  - destruct (built_inv_ConsistentHash hash v nodes) as (_ & Hdom & _). by apply Hdom.
  - destruct (add_vnodes_keys hash n (seq 0 (virtual_nodes r)) r) as [_ Hsk'].
    unfold add_node in *. cbv zeta in *. cbn [hash_ring sorted_keys] in *.
    rewrite merge_sort_Permutation, Hsk', elem_of_app.
    rewrite add_vnodes_lookup in Hk. case_decide as Hin; [by right|]. left. auto.
  - destruct (keys_to_remove_spec r node) as [Hksnd Hks].
    set (ks := fst <$> filter (fun kv => kv.2 = node) (map_to_list (hash_ring r))) in *.
    destruct (remove_vnodes_spec ks r Hksnd) as (r'' & Hf & _ & Hsk & Hlk).
    { intros k' Hk'. apply IH. apply Hks in Hk'. eauto. }
    assert (r' = r'') as -> by (unfold remove_node in Hrm; fold ks in Hrm; congruence).
    rewrite Hlk in Hk. case_decide as Hin; [by destruct Hk|].
    apply IH in Hk. rewrite Hsk, elem_of_app in Hk. destruct Hk as [Hk|Hk]; [done|done].
Qed.


(** ** Extra properties: the ring *)

(** [get_node] on tracked rings: with at least one node and [V > 0] it
    answers with one of the present nodes (never [KeyError] or a division by
    zero); with no node or [V = 0] it raises the ring-empty error. *)
Theorem get_node_tracked_total (hash : string -> Z) (v : nat) (ns : list string) (r : ring) :
  tracked hash v ns r ->
  forall key,
  (ns <> [] -> v <> 0%nat -> exists m, get_node hash r key = Ok m /\ m ∈ ns) /\
  ((ns = [] \/ v = 0%nat) -> get_node hash r key = Err RingEmpty).
Proof.
  intros Ht key. pose proof (tracked_repr hash v ns r Ht) as Hr.
  pose proof Hr as (_ & Hperm & Hs & _ & Hlook).
  rewrite (get_node_repr hash v ns r key Hr). split.
  - intros Hns Hv.
    destruct (ring_successor (Z.ltb (hash key)) (sorted_keys r)) as [x|] eqn:Hx.
    + destruct (ring_successor_spec _ _ _ Hs Hx) as [Hxin _].
      apply (repr_key_in hash v ns r x Hr) in Hxin as [m Hm]. rewrite Hm.
      exists m. split; [done|]. by apply Hlook in Hm as [? _].
    + exfalso. apply ring_successor_None in Hx. rewrite Hx in Hperm.
      symmetry in Hperm. apply Permutation_nil_r in Hperm. apply vnode_hashes_nil in Hperm as [?|?]; done.
  - intros Hnv. apply (proj2 (vnode_hashes_nil hash v ns)) in Hnv. rewrite Hnv in Hperm.
    apply Permutation_nil_r in Hperm. rewrite Hperm. done.
Qed.

Lemma get_node_tracked_total_witness :
  exists m, get_node _hash (ConsistentHash _hash ["a"; "b"] 100) "page" = Ok m /\ m ∈ ["a"; "b"].
Proof.
  refine (proj1 (get_node_tracked_total _hash 100 ["a"; "b"] (ConsistentHash _hash ["a"; "b"] 100)
    (tr_init _hash 100 ["a"; "b"] md5_ab_no_collision) "page") _ _); discriminate.
Defined.



(** Removing a node moves only the keys it served: afterwards no key resolves
    to the removed node, and every key it did not serve keeps its node. *)
Theorem remove_node_moves_only_its_keys (hash : string -> Z) (v : nat) (ns : list string) (r r' : ring) (n : string) :
  tracked hash v ns r -> remove_node r n = Ok r' ->
  forall key, get_node hash r' key <> Ok n /\
              (get_node hash r key <> Ok n -> get_node hash r' key = get_node hash r key).
Proof.
  intros Ht Hrm key. pose proof (tracked_repr hash v ns r Ht) as Hr.
  destruct (ring_repr_remove hash v ns r n Hr) as (r'' & Hrm' & Hr').
  rewrite Hrm in Hrm'. inversion Hrm'; subst r''. clear Hrm'.
  split.
  - intros Hg. apply (get_node_repr_Ok hash v _ r' key n Hr') in Hg.
    apply list_elem_of_filter in Hg as [Hne _]. done.
  - intros Hne.
    destruct (get_node_repr_subset hash v _ ns r' r key Hr' Hr) as [H | (m & Hm & Hin & Hnin)].
    + intros m Hm. by apply list_elem_of_filter in Hm as [_ ?].
    + done.
    + exfalso. destruct (decide (m = n)) as [->|Hmn]; [done|].
      apply Hnin, list_elem_of_filter. done.
Qed.

Lemma remove_node_moves_only_its_keys_witness :
  exists r', remove_node (ConsistentHash _hash ["a"; "b"] 100) "a" = Ok r' /\
    forall key, get_node _hash r' key <> Ok "a" /\
      (get_node _hash (ConsistentHash _hash ["a"; "b"] 100) key <> Ok "a" ->
       get_node _hash r' key = get_node _hash (ConsistentHash _hash ["a"; "b"] 100) key).
Proof.
  destruct (ring_repr_remove _hash 100 ["a"; "b"] (ConsistentHash _hash ["a"; "b"] 100) "a"
    (ring_repr_ConsistentHash _hash 100 ["a"; "b"] md5_ab_no_collision)) as (r' & Hrm & _).
  exists r'. split; [exact Hrm|].
  exact (remove_node_moves_only_its_keys _hash 100 ["a"; "b"] (ConsistentHash _hash ["a"; "b"] 100) r' "a"
    (tr_init _hash 100 ["a"; "b"] md5_ab_no_collision) Hrm).
Defined.

(** Without hash collisions, the ring built by [ConsistentHash] does not
    depend on the order of the node list. *)
Theorem ConsistentHash_order_independent (hash : string -> Z) (v : nat) (nodes nodes' : list string) :
  NoDup (vnode_hashes hash v nodes) -> nodes ≡ₚ nodes' ->
  ConsistentHash hash nodes v = ConsistentHash hash nodes' v.
Proof.
  intros Hnd Hp.
  assert (Hnd' : NoDup (vnode_hashes hash v nodes')) by (by rewrite <- (vnode_hashes_perm hash v _ _ Hp)).
  apply (ring_repr_unique hash v nodes nodes'); try by apply ring_repr_ConsistentHash.
  intros m. by rewrite Hp.
Qed.

Lemma ConsistentHash_order_independent_witness :
  ConsistentHash _hash ["a"; "b"] 100 = ConsistentHash _hash ["b"; "a"] 100.
Proof.
  exact (ConsistentHash_order_independent _hash 100 ["a"; "b"] ["b"; "a"] md5_ab_no_collision
    (perm_swap "b" "a" [])).
Defined.

(** [remove_node] never raises [ValueError] on a ring the program can build;
    afterwards no entry of [hash_ring] maps to the node, the entries of the
    other nodes are unchanged, and removing a node that has no entry leaves
    the ring as it was. *)
Theorem remove_node_never_fails (hash : string -> Z) (v : nat) (r : ring) (node : string) :
  reachable hash v r ->
  exists r', remove_node r node = Ok r' /\
    (forall k, hash_ring r' !! k <> Some node) /\
    (forall k m, m <> node -> hash_ring r' !! k = Some m <-> hash_ring r !! k = Some m) /\
    ((forall k, hash_ring r !! k <> Some node) -> r' = r).
Proof.
  intros Hreach. pose proof (reachable_dom hash v r Hreach) as Hdom.
  destruct (keys_to_remove_spec r node) as [Hksnd Hks].
  unfold remove_node.
  set (ks := fst <$> filter (fun kv => kv.2 = node) (map_to_list (hash_ring r))) in *.
  destruct (remove_vnodes_spec ks r Hksnd) as (r' & Hf & _ & _ & Hlk).
  { intros k Hk. apply Hdom. apply Hks in Hk. eauto. }
  exists r'. split; [done|]. split; [|split].
  - intros k. rewrite Hlk. case_decide as Hin; [done|]. intros Hk. apply Hin, Hks, Hk.
  - intros k m Hmn. rewrite Hlk. case_decide as Hin; [|done].
    apply Hks in Hin. rewrite Hin. split; [done|]. intros [= ->]. done.
  - intros Hnone. destruct ks as [|k ks'] eqn:Eks.
    + simpl in Hf. by inversion Hf.
    + exfalso. apply (Hnone k), Hks. apply elem_of_cons. by left.
Qed.

Lemma remove_node_never_fails_witness :
  exists r', remove_node (add_node _hash (ConsistentHash _hash ["a"] 100) "a") "a" = Ok r' /\
    (forall k, hash_ring r' !! k <> Some "a") /\
    (forall k m, m <> "a" -> hash_ring r' !! k = Some m <->
       hash_ring (add_node _hash (ConsistentHash _hash ["a"] 100) "a") !! k = Some m) /\
    ((forall k, hash_ring (add_node _hash (ConsistentHash _hash ["a"] 100) "a") !! k <> Some "a") ->
     r' = add_node _hash (ConsistentHash _hash ["a"] 100) "a").
Proof.
  exact (remove_node_never_fails _hash 100 (add_node _hash (ConsistentHash _hash ["a"] 100) "a") "a"
    (reach_add _hash 100 _ "a" (reach_init _hash 100 ["a"]))).
Defined.

(** ** Extra properties: [RedisManager] *)

Lemma rm_get_eq (hash : string -> Z) ok rm key :
  rm_get hash ok rm key =
    res_bind (get_connection hash rm key) (fun _ => if ok then Ok (store_value hash rm key) else Err ConnFailed).
Proof.
  unfold rm_get, get_connection, store_value, res_bind.
  destruct (get_node hash (consistent_hash rm) key) as [node|e]; [|done].
  destruct (redis_clients rm !! node) as [db|] eqn:Hdb; [|done]. by rewrite Hdb.
Qed.

(** [__init__] raises [ValueError] as soon as one node is refused by
    [from_url].  When every node is accepted, the manager it builds routes
    every key to one of its nodes and has a client for it, so [get] on a
    working connection returns the server's value for the key (0 when
    absent); with no node, or [VIRTUAL_NODES = 0], every lookup raises the
    ring-empty error. *)
Theorem RedisManager_init_routes (hash : string -> Z) (from_url_ok : string -> bool)
    (nodes : list string) (v : nat) (dbs : string -> gmap string Z) (key : string) :
  ((exists n, n ∈ nodes /\ from_url_ok n = false) ->
   RedisManager_init hash from_url_ok nodes v dbs = Err ValueErr) /\
  ((forall n, n ∈ nodes -> from_url_ok n = true) ->
   exists rm, RedisManager_init hash from_url_ok nodes v dbs = Ok rm /\
     ((nodes = [] \/ v = 0%nat) -> get_connection hash rm key = Err RingEmpty) /\
     (nodes <> [] -> v <> 0%nat ->
      exists m, m ∈ nodes /\ get_connection hash rm key = Ok m /\
        rm_get hash true rm key = Ok (default 0 (dbs m !! key)))).
Proof.
  unfold RedisManager_init. rewrite init_clients_fold. split.
  - intros (n & Hn & Hf). destruct (forallb from_url_ok nodes) eqn:E; [|done].
    rewrite forallb_forall in E. rewrite E in Hf; [done|]. by apply list_elem_of_In.
  - intros Hok. replace (forallb from_url_ok nodes) with true
      by (symmetry; apply forallb_forall; intros n Hn; apply Hok; by apply list_elem_of_In).
    eexists. split; [reflexivity|].
    destruct (get_node_built hash v nodes (ConsistentHash hash nodes v) key
                (built_inv_ConsistentHash hash v nodes)) as [Hemp Hne].
    unfold rm_get, get_connection. cbn [consistent_hash redis_clients]. split.
    + intros H. by rewrite (Hemp H).
    + intros Hn Hv. destruct (Hne Hn Hv) as (m & Hm & Hin). rewrite Hm. simpl.
      rewrite clients_lookup, decide_True by done. simpl. exists m.
      rewrite clients_lookup, decide_True by done. done.
Qed.

(** [increment] returns the new value (the stored value plus [amount]); a
    following [get] of the key on a working connection returns that value,
    and [get] of every other key answers as before. *)
Theorem rm_increment_get_roundtrip (hash : string -> Z) ok (rm rm' : rman) (key : string) (amount x : Z) :
  rm_increment hash ok rm key amount = Ok (rm', x) ->
  x = store_value hash rm key + amount /\
  rm_get hash true rm' key = Ok x /\
  (forall ok' key', key' <> key -> rm_get hash ok' rm' key' = rm_get hash ok' rm key').
Proof.
  intros Hi. pose proof Hi as Hi'.
  apply rm_increment_spec in Hi' as (Hring & Hdom & Hsv & Hsv').
  assert (Hx : x = store_value hash rm key + amount).
  { revert Hi. unfold rm_increment, get_connection, store_value, res_bind.
    destruct (get_node hash (consistent_hash rm) key) as [node|e]; [|discriminate].
    destruct (redis_clients rm !! node) as [db|] eqn:Hdb; [|discriminate].
    destruct ok; [|discriminate]. intros H. inversion H. by rewrite Hdb. }
  split; [done|]. split.
  - rewrite rm_get_eq, (get_connection_ext hash rm rm' key Hring Hdom), Hsv, <- Hx.
    revert Hi. unfold rm_increment, res_bind.
    destruct (get_connection hash rm key); [done|discriminate].
  - intros ok' key' Hne. rewrite !rm_get_eq, (get_connection_ext hash rm rm' key' Hring Hdom), Hsv' by done.
    done.
Qed.

Lemma rm_increment_get_roundtrip_witness :
  rm_increment _hash true example_rman (redis_key "p") 3 =
    Ok (mk_rman (ConsistentHash _hash ["a"] 100) {["a" := {[redis_key "p" := 3]}]}, 3) /\
  rm_get _hash true (mk_rman (ConsistentHash _hash ["a"] 100) {["a" := {[redis_key "p" := 3]}]})
    (redis_key "p") = Ok 3.
Proof.
  assert (E : rm_increment _hash true example_rman (redis_key "p") 3 =
    Ok (mk_rman (ConsistentHash _hash ["a"] 100) {["a" := {[redis_key "p" := 3]}]}, 3))
    by (vm_compute; reflexivity).
  split; [exact E|].
  exact (proj1 (proj2 (rm_increment_get_roundtrip _hash true example_rman
    (mk_rman (ConsistentHash _hash ["a"] 100) {["a" := {[redis_key "p" := 3]}]}) (redis_key "p") 3 3 E))).
Defined.

(** ** Extra properties: [CacheService] *)

(** After [set] at time [t], [get] of the key is a hit with the value up to
    and including [t + ttl_seconds], a miss that removes the entry after it,
    and [get] of any other key answers as before the [set]. *)
Theorem cs_set_get {A} (t now : Q) (key : string) (value : A) (c : cache_service A) :
  ((now <= t + ttl_seconds c)%Q ->
   cs_get now key (cs_set t key value c) = (cs_set t key value c, (Some value, true))) /\
  ((t + ttl_seconds c < now)%Q ->
   cs_get now key (cs_set t key value c) = (mk_cs (delete key (cs_entries c)) (ttl_seconds c), (None, false))) /\
  (forall key', key' <> key -> snd (cs_get now key' (cs_set t key value c)) = snd (cs_get now key' c)).
Proof.
  unfold cs_get, cs_set. cbn [cs_entries ttl_seconds]. rewrite lookup_insert_eq. split; [|split].
  - intros Hle. unfold qlt. destruct (Qle_bool now (t + ttl_seconds c)) eqn:E; [done|].
    exfalso. apply Bool.not_true_iff_false in E. apply E, Qle_bool_iff. done.
  - intros Hlt. unfold qlt. destruct (Qle_bool now (t + ttl_seconds c)) eqn:E.
    + exfalso. apply Qle_bool_iff in E. apply (Qlt_not_le _ _ Hlt E).
    + simpl. by rewrite delete_insert_eq.
  - intros key' Hne. rewrite lookup_insert_ne by congruence.
    destruct (cs_entries c !! key') as [[x e]|]; [|done]. by destruct (qlt e now).
Qed.

(** [invalidate] makes the next [get] of the key a miss and leaves every
    other key's answer and the TTL as they were; after [clear] every [get]
    is a miss. *)
Theorem cs_invalidate_clear {A} (now : Q) (key : string) (c : cache_service A) :
  cs_get now key (cs_invalidate key c) = (cs_invalidate key c, (None, false)) /\
  (forall key', key' <> key -> snd (cs_get now key' (cs_invalidate key c)) = snd (cs_get now key' c)) /\
  ttl_seconds (cs_invalidate key c) = ttl_seconds c /\
  (forall key', cs_get now key' (cs_clear c) = (cs_clear c, (None, false))).
Proof.
  unfold cs_invalidate. split; [|split; [|split]].
  - destruct (cs_entries c !! key) as [y|] eqn:E; unfold cs_get; cbn [cs_entries].
    + by rewrite lookup_delete_eq.
    + by rewrite E.
  - intros key' Hne. destruct (cs_entries c !! key) as [y|]; [|done].
    unfold cs_get. cbn [cs_entries ttl_seconds]. rewrite lookup_delete_ne by congruence.
    destruct (cs_entries c !! key') as [[x e]|]; [|done]. by destruct (qlt e now).
  - by destruct (cs_entries c !! key).
  - intros key'. unfold cs_get, cs_clear. cbn [cs_entries]. by rewrite lookup_empty.
Qed.

(** ** Extra properties: [VisitCounterService] *)

Lemma foldl_flush_one_trace (hash : string -> Z) net (l : list (string * Z)) s tr s' tr' :
  foldl (flush_one hash net) (s, tr) l = (s', tr') ->
  tr' = tr ++ map (fun kv => OpIncr (redis_key kv.1) kv.2) (filter (fun kv => 0 < kv.2) l).
Proof.
  revert s tr. induction l as [|[k c] l IH]; intros s tr Hf.
  - simpl in Hf. inversion Hf. by rewrite app_nil_r.
  - cbn [foldl] in Hf.
    destruct (flush_one hash net (s, tr) (k, c)) as [s1 tr1] eqn:H1.
    destruct (flush_one_spec hash net s tr k c s1 tr1 k H1) as (_ & _ & _ & _ & _ & _ & _ & Htr).
    rewrite (IH s1 tr1 Hf), Htr, filter_cons. cbn [snd].
    destruct (Z.ltb_spec 0 c) as [Hc|Hc].
    + rewrite decide_True by done. simpl. by rewrite <- app_assoc.
    + rewrite decide_False by lia. by rewrite app_nil_r.
Qed.

Lemma flush_one_cache (hash : string -> Z) net s tr k c s' tr' K :
  flush_one hash net (s, tr) (k, c) = (s', tr') ->
  cache s' !! K =
    if decide (k = K) then
      (if (0 <? c) && incr_ok hash (net (redis_key k)) (redis s) (redis_key k) then None else cache s !! K)
    else cache s !! K.
Proof.
  unfold flush_one. destruct (0 <? c) eqn:Hc.
  - destruct (rm_increment_cases hash (net (redis_key k)) (redis s) (redis_key k) c)
      as [[Hok (rm' & x & Hi)] | [Hok (e & Hi)]]; rewrite Hi; intros H; inversion H; subst; clear H;
      rewrite Hok; svc_simpl; simpl andb.
    + case_decide as Hk; [subst; apply lookup_delete_eq | by apply lookup_delete_ne].
    + by case_decide.
  - intros H. inversion H; subst. by case_decide.
Qed.

Lemma foldl_flush_one_cache (hash : string -> Z) net (l : list (string * Z)) s tr s' tr' K :
  NoDup l.*1 ->
  foldl (flush_one hash net) (s, tr) l = (s', tr') ->
  cache s' !! K =
    match (list_to_map l : gmap string Z) !! K with
    | Some c => if (0 <? c) && incr_ok hash (net (redis_key K)) (redis s) (redis_key K) then None
                else cache s !! K
    | None => cache s !! K
    end.
Proof.
  revert s tr. induction l as [|[k c] l IH]; intros s tr Hnd Hf.
  - simpl in Hf. inversion Hf; subst. simpl. by rewrite lookup_empty.
  - cbn [foldl] in Hf. rewrite fmap_cons in Hnd. apply NoDup_cons in Hnd as [Hk Hnd].
    destruct (flush_one hash net (s, tr) (k, c)) as [s1 tr1] eqn:H1.
    destruct (flush_one_spec hash net s tr k c s1 tr1 K H1) as (Hr1 & Hd1 & _).
    pose proof (flush_one_cache hash net s tr k c s1 tr1 K H1) as Hc1.
    rewrite (IH s1 tr1 Hnd Hf), list_to_map_cons, (incr_ok_ext hash _ (redis s) (redis s1) _ Hr1 Hd1).
    case_decide as HkK.
    + subst. rewrite lookup_insert_eq, not_elem_of_list_to_map_1 by done. done.
    + rewrite lookup_insert_ne by done.
      destruct ((list_to_map l : gmap string Z) !! K) as [c'|]; [|done].
      destruct (_ && _); [done|done].
Qed.

(** The store operations of a flush: exactly one [increment] per buffered
    page with a positive count, by that count, whatever their outcome; none
    for other pages (the order is the loop's iteration order). *)
Theorem flush_buffer_store_ops (hash : string -> Z) net t (s : svc) :
  snd (flush_buffer hash net t s) ≡ₚ
    map (fun kv => OpIncr (redis_key kv.1) kv.2) (filter (fun kv => 0 < kv.2) (map_to_list (write_buffer s))).
Proof.
  unfold flush_buffer. case_decide as He.
  - rewrite He, map_to_list_empty. done.
  - destruct (foldl (flush_one hash net) (set_write_buffer s ∅, []) (map_to_list (write_buffer s)))
      as [s2 tr] eqn:Hf. simpl. by rewrite (foldl_flush_one_trace hash net _ _ _ _ _ Hf).
Qed.

(** Per page, a flush adds the buffered count to the stored value when the
    store increment succeeds and then drops the cache entry; when it fails it
    keeps the count buffered and the cache entry; a page with nothing
    buffered keeps its stored value and cache entry.  A flush of a non-empty
    buffer sets [last_flush_time] to the end time of the flush. *)
Theorem flush_buffer_per_page (hash : string -> Z) net t (s : svc) (K : string) :
  store_value hash (redis (fst (flush_buffer hash net t s))) (redis_key K) =
    store_value hash (redis s) (redis_key K) +
    (match write_buffer s !! K with
     | Some c => if (0 <? c) && incr_ok hash (net (redis_key K)) (redis s) (redis_key K) then c else 0
     | None => 0 end) /\
  write_buffer (fst (flush_buffer hash net t s)) !! K =
    (match write_buffer s !! K with
     | Some c => if (0 <? c) && negb (incr_ok hash (net (redis_key K)) (redis s) (redis_key K))
                 then Some c else None
     | None => None end) /\
  cache (fst (flush_buffer hash net t s)) !! K =
    (match write_buffer s !! K with
     | Some c => if (0 <? c) && incr_ok hash (net (redis_key K)) (redis s) (redis_key K)
                 then None else cache s !! K
     | None => cache s !! K end) /\
  (write_buffer s <> ∅ -> last_flush_time (fst (flush_buffer hash net t s)) = t).
Proof.
  destruct (flush_buffer hash net t s) as [s' tr] eqn:Hf. cbn [fst].
  destruct (flush_buffer_spec hash net t s s' tr K Hf) as (_ & _ & Hs & Hw & _).
  split; [done|]. split; [done|].
  unfold flush_buffer in Hf. case_decide as He.
  - inversion Hf; subst. rewrite He, lookup_empty. split; [done|]. done.
  - destruct (foldl (flush_one hash net) (set_write_buffer s ∅, []) (map_to_list (write_buffer s)))
      as [s2 tr2] eqn:Hf2. inversion Hf; subst; clear Hf.
    split; [|done]. svc_simpl.
    rewrite (foldl_flush_one_cache hash net _ _ _ _ _ K (NoDup_fst_map_to_list _) Hf2), list_to_map_to_list.
    done.
Qed.

Lemma read_through_fst (hash : string -> Z) netf getok now tf K s :
  let s1 := if flush_due now s then fst (flush_buffer hash netf tf s) else s in
  redis (fst (read_through hash netf getok now tf K s)) = redis s1 /\
  write_buffer (fst (read_through hash netf getok now tf K s)) = write_buffer s1.
Proof.
  unfold read_through. cbv zeta.
  destruct (rm_get hash getok (redis _) (redis_key K)); done.
Qed.

Lemma get_visit_count_fst (hash : string -> Z) netf getok now tf K s :
  fst (get_visit_count hash netf getok now tf K s) = s \/
  exists s0, redis s0 = redis s /\ write_buffer s0 = write_buffer s /\
    fst (get_visit_count hash netf getok now tf K s) = fst (read_through hash netf getok now tf K s0).
Proof.
  unfold get_visit_count. destruct (cache s !! K) as [[cnt e]|].
  - destruct (qlt now e); [by left|]. right. eexists. split; [|split]; [| |reflexivity]; done.
  - right. exists s. done.
Qed.

(** Buffered counts stay positive: [increment_visit], [flush_buffer] and
    [get_visit_count] keep every pending count above zero (so the [count > 0]
    test of [flush_buffer] never skips an entry). *)
Theorem pending_counts_positive (hash : string -> Z) net t netf getok now tf (K : string) (s : svc) :
  (forall k c, write_buffer s !! k = Some c -> 0 < c) ->
  (forall k c, write_buffer (increment_visit K s) !! k = Some c -> 0 < c) /\
  (forall k c, write_buffer (fst (flush_buffer hash net t s)) !! k = Some c -> 0 < c) /\
  (forall k c, write_buffer (fst (get_visit_count hash netf getok now tf K s)) !! k = Some c -> 0 < c).
Proof.
  intros Hpos.
  assert (Hfl : forall net t s, (forall k c, write_buffer s !! k = Some c -> 0 < c) ->
            forall k c, write_buffer (fst (flush_buffer hash net t s)) !! k = Some c -> 0 < c).
  { intros net' t' s0 Hp k c.
    destruct (flush_buffer hash net' t' s0) as [s' tr] eqn:Hf. cbn [fst].
    destruct (flush_buffer_spec hash net' t' s0 s' tr k Hf) as (_ & _ & _ & Hw & _). rewrite Hw.
    destruct (write_buffer s0 !! k) as [c0|]; [|done].
    destruct (Z.ltb_spec 0 c0); simpl; [|done].
    destruct (incr_ok _ _ _ _); simpl; [done|]. intros [= <-]. done. }
  split; [|split; [by apply Hfl|]].
  - intros k c. unfold increment_visit. svc_simpl.
    destruct (decide (k = K)) as [->|Hne].
    + rewrite lookup_insert_eq. intros [= <-].
      destruct (write_buffer s !! K) as [c0|] eqn:E; simpl; [specialize (Hpos K c0 E)|]; lia.
    + rewrite lookup_insert_ne by done. apply Hpos.
  - destruct (get_visit_count_fst hash netf getok now tf K s) as [-> | (s0 & Hr & Hw & ->)]; [done|].
    destruct (read_through_fst hash netf getok now tf K s0) as [_ ->].
    destruct (flush_due now s0); [|by rewrite Hw].
    apply Hfl. by rewrite Hw.
Qed.

Lemma pending_counts_positive_witness :
  (forall k c, write_buffer (example_svc {["p" := 3]}) !! k = Some c -> 0 < c) /\
  (forall k c, write_buffer (increment_visit "p" (example_svc {["p" := 3]})) !! k = Some c -> 0 < c).
Proof.
  assert (Hpos : forall k c, write_buffer (example_svc {["p" := 3]}) !! k = Some c -> 0 < c).
  { intros k c Hk. cbn [write_buffer example_svc] in Hk.
    apply lookup_singleton_Some in Hk as [_ <-]. lia. }
  split; [exact Hpos|].
  exact (proj1 (pending_counts_positive _hash (fun _ => true) 0%Q (fun _ => true) true 0%Q 0%Q "p"
    (example_svc {["p" := 3]}) Hpos)).
Defined.

(** A read never gains or loses visits: when no pending count is negative,
    [get_visit_count] (with or without a catch-up flush, whatever the store
    answers) leaves every page's stored value plus pending count unchanged. *)
Theorem get_visit_count_conserves (hash : string -> Z) netf getok now tf (K : string) (s : svc) :
  (forall k c, write_buffer s !! k = Some c -> 0 <= c) ->
  forall K', observed hash (fst (get_visit_count hash netf getok now tf K s)) K' = observed hash s K'.
Proof.
  intros Hnn K'.
  destruct (get_visit_count_fst hash netf getok now tf K s) as [-> | (s0 & Hr & Hw & ->)]; [done|].
  destruct (read_through_fst hash netf getok now tf K s0) as [Hr1 Hw1].
  unfold observed. rewrite Hr1, Hw1.
  destruct (flush_due now s0).
  - destruct (flush_buffer hash netf tf s0) as [s1 tr] eqn:Hf. cbn [fst].
    assert (H : observed hash s1 K' = observed hash s0 K').
    { apply (flush_buffer_observed hash netf tf s0 s1 tr K'); [|done].
      rewrite Hw. apply Hnn. }
    unfold observed in H. rewrite H, Hr, Hw. done.
  - by rewrite Hr, Hw.
Qed.

Lemma get_visit_count_conserves_witness :
  (forall k c, write_buffer (example_svc {["p" := 3]}) !! k = Some c -> 0 <= c) /\
  observed _hash (fst (get_visit_count _hash (fun _ => true) true 20%Q 20%Q "p" (example_svc {["p" := 3]}))) "p" =
  observed _hash (example_svc {["p" := 3]}) "p".
Proof.
  assert (Hnn : forall k c, write_buffer (example_svc {["p" := 3]}) !! k = Some c -> 0 <= c).
  { intros k c Hk. cbn [write_buffer example_svc] in Hk.
    apply lookup_singleton_Some in Hk as [_ <-]. lia. }
  split; [exact Hnn|].
  exact (get_visit_count_conserves _hash (fun _ => true) true 20%Q 20%Q "p" (example_svc {["p" := 3]}) Hnn "p").
Defined.

Lemma read_through_Ok_cache (hash : string -> Z) netf getok now tf K s s1 v src :
  read_through hash netf getok now tf K s = (s1, Ok (v, src)) ->
  src = Redis /\ cache s1 !! K = Some (v, (now + cache_ttl s)%Q).
Proof.
  unfold read_through.
  assert (Httl : cache_ttl (if flush_due now s then fst (flush_buffer hash netf tf s) else s) = cache_ttl s).
  { destruct (flush_due now s); [|done].
    destruct (flush_buffer hash netf tf s) as [s' tr] eqn:Hf. cbn [fst].
    exact (proj2 (proj2 (proj2 (proj2 (proj2 (flush_buffer_spec hash netf tf s s' tr K Hf)))))). }
  destruct (rm_get hash getok _ (redis_key K)); intros H; inversion H; subst; clear H.
  split; [done|]. svc_simpl. rewrite Httl. apply lookup_insert_eq.
Qed.

Lemma get_visit_count_Redis_cache (hash : string -> Z) netf getok now tf K s s1 v :
  get_visit_count hash netf getok now tf K s = (s1, Ok (v, Redis)) ->
  cache s1 !! K = Some (v, (now + cache_ttl s)%Q).
Proof.
  unfold get_visit_count. destruct (cache s !! K) as [[cnt e]|].
  - destruct (qlt now e); [intros [= _ _]; done|].
    intros H. exact (proj2 (read_through_Ok_cache hash netf getok now tf K _ s1 v Redis H)).
  - intros H. exact (proj2 (read_through_Ok_cache hash netf getok now tf K s s1 v Redis H)).
Qed.

(** The [test_cache] endpoint: when its first read comes from the store and
    the second read is made before the cache TTL has run out, the second read
    is answered from the in-memory cache with the same count, and the state is
    the one left by the first read. *)
Theorem test_cache_second_from_cache (hash : string -> Z) netf1 getok1 t1 tf1 netf2 getok2 t2 tf2
    (K : string) (s s1 : svc) (v : Z) :
  get_visit_count hash netf1 getok1 t1 tf1 K s = (s1, Ok (v, Redis)) ->
  (t2 < t1 + cache_ttl s)%Q ->
  test_cache hash netf1 getok1 t1 tf1 netf2 getok2 t2 tf2 K s = (s1, Ok ((v, Redis), (v, InMemory))).
Proof.
  intros H1 Ht.
  pose proof (get_visit_count_Redis_cache hash netf1 getok1 t1 tf1 K s s1 v H1) as Hc.
  assert (Hq : qlt t2 (t1 + cache_ttl s) = true).
  { unfold qlt. destruct (Qle_bool (t1 + cache_ttl s) t2) eqn:E; [|done].
    apply Qle_bool_iff in E. exfalso. apply (Qlt_not_le _ _ Ht E). }
  unfold test_cache. rewrite H1.
  unfold get_visit_count at 1. rewrite Hc, Hq. reflexivity.
Qed.

Lemma test_cache_second_from_cache_witness :
  let s := mk_svc ∅ 5%Q ∅ 0%Q 10%Q (mk_rman (ConsistentHash (fun _ => 0) ["a"] 1) {["a" := ∅]}) in
  test_cache (fun _ => 0) (fun _ => true) true 0%Q 0%Q (fun _ => true) true 1%Q 1%Q "p" s =
    (fst (get_visit_count (fun _ => 0) (fun _ => true) true 0%Q 0%Q "p" s), Ok ((0, Redis), (0, InMemory))).
Proof.
  intros s.
  assert (H1 : get_visit_count (fun _ => 0) (fun _ => true) true 0%Q 0%Q "p" s =
               (fst (get_visit_count (fun _ => 0) (fun _ => true) true 0%Q 0%Q "p" s), Ok (0, Redis)))
    by (vm_compute; reflexivity).
  assert (Ht : (1 < 0 + cache_ttl s)%Q) by (vm_compute; reflexivity).
  exact (test_cache_second_from_cache (fun _ => 0) (fun _ => true) true 0%Q 0%Q (fun _ => true) true
    1%Q 1%Q "p" s _ 0 H1 Ht).
Defined.

Lemma increment_visit_comm (a b : string) (s : svc) :
  increment_visit a (increment_visit b s) = increment_visit b (increment_visit a s).
Proof.
  destruct (decide (a = b)) as [->|Hne]; [done|].
  destruct s as [c ttl wb lft fi rm]. unfold increment_visit. svc_simpl. simpl.
  rewrite !lookup_insert_ne by congruence.
  rewrite insert_insert_ne by done. rewrite delete_delete. done.
Qed.

(** Pending counts do not depend on the order of the visits: two sequences
    of [increment_visit] calls over the same pages, in any order, lead to
    the same state. *)
Theorem increments_order_independent (ps ps' : list string) (s : svc) :
  ps ≡ₚ ps' -> increments ps s = increments ps' s.
Proof.
  unfold increments. intros Hp. induction Hp as [|x l l' _ IH|x y l|l l' l'' _ IH1 _ IH2] in s |- *.
  - done.
  - simpl. apply IH.
  - simpl. by rewrite increment_visit_comm.
  - by rewrite IH1, IH2.
Qed.

Lemma increments_order_independent_witness :
  ["a"; "b"; "a"] ≡ₚ ["a"; "a"; "b"] /\
  increments ["a"; "b"; "a"] (example_svc ∅) = increments ["a"; "a"; "b"] (example_svc ∅).
Proof.
  assert (Hp : ["a"; "b"; "a"] ≡ₚ ["a"; "a"; "b"]) by (apply perm_skip, perm_swap).
  split; [exact Hp|].
  exact (increments_order_independent ["a"; "b"; "a"] ["a"; "a"; "b"] (example_svc ∅) Hp).
Defined.
